(** * power-ps1: the shell prompt generator [prompt.c]

    A shallow embedding of [src/prompt.c] and the properties of its git
    repository state resolver ([git_section]) and of the helpers it is
    built on: the bounded prompt buffer ([append], [appendraw],
    [section]), the string helper [strcatv], the subprocess runner
    [readp], the file reader [readf], the line splitter [split] and the
    [lstat] probes.

    Conventions.
    - A C string value is a [bytes] (a list of characters) without its
      terminating NUL; a [char*] that may be [NULL] is an [option bytes].
    - A [char] array whose layout matters ([rpbuf], [tmp]) is the list of
      all its cells; a pointer into it is an index.
    - C [int] variables are [Z]; conversions from [size_t] are written out.
    - The outside world (child processes, the file system, the contents
      of uninitialised stack arrays) is a [world] record, and every
      system call the resolver makes is appended to a trace. *)

From Stdlib Require Import ZArith NArith Ascii String DecimalString DecimalN.
From Stdlib Require Import Bool Arith Lia List.
Import ListNotations.

Local Open Scope list_scope.

(* ===================================================================== *)
(** ** Bytes and C strings *)
(* ===================================================================== *)

Definition bytes := list ascii.

Definition str (s : string) : bytes := list_ascii_of_string s.
Arguments str s%_string.

Definition NUL : ascii := Ascii.zero.

(** The non-ASCII string literals of the source, in UTF-8. *)
Definition utf8 (a b c : nat) : bytes :=
  [ascii_of_nat a; ascii_of_nat b; ascii_of_nat c].
Definition up_arrow : bytes := utf8 226 134 145.      (* U+2191 *)
Definition down_arrow : bytes := utf8 226 134 147.    (* U+2193 *)
Definition updown_arrow : bytes := utf8 226 134 149.  (* U+2195 *)
Definition TAB : ascii := ascii_of_nat 9.
Definition LF : ascii := ascii_of_nat 10.
Definition separator_glyph : bytes := utf8 238 130 176. (* U+E0B0 *)
Definition ESC : ascii := ascii_of_nat 27.

(** [strcmp(a, b) == 0] *)
Fixpoint streq (a b : bytes) : bool :=
  match a, b with
  | [], [] => true
  | x :: a', y :: b' => Ascii.eqb x y && streq a' b'
  | _, _ => false
  end.

(** [strncmp(a, b, n) == 0] *)
Definition strneq (a b : bytes) (n : nat) : bool :=
  streq (firstn n a) (firstn n b).

(** The C string that starts at the first cell of [m]. *)
Fixpoint cstr (m : bytes) : bytes :=
  match m with
  | [] => []
  | c :: m' => if Ascii.eqb c NUL then [] else c :: cstr m'
  end.

Definition cstr_at (m : bytes) (off : nat) : bytes := cstr (skipn off m).

(** [memcpy]-like store of [data] at index [off], and a one byte store. *)
Definition store (m : bytes) (off : nat) (data : bytes) : bytes :=
  firstn off m ++ data ++ skipn (off + length data) m.

Definition poke (m : bytes) (off : nat) (c : ascii) : bytes := store m off [c].

(** An array of [size] cells whose contents are whatever [junk] is there. *)
Definition array (junk : nat -> ascii) (size : nat) : bytes :=
  map junk (seq 0 size).

(** Integer conversions of the LP64 ABI. *)
Definition to_size_t (z : Z) : Z := (z mod 2 ^ 64)%Z.
Definition to_int (z : Z) : Z := ((z + 2 ^ 31) mod 2 ^ 32 - 2 ^ 31)%Z.

(* ===================================================================== *)
(** ** The prompt buffer: [prompt], [current], [remaining], [lastbg] *)
(* ===================================================================== *)

Definition PROMPT_SIZE : Z := 4096.

(** [written] lists the bytes stored from [prompt[0]] on, so [current] is
    [prompt + length written]; a length above [PROMPT_SIZE] means bytes
    were stored past the end of the array. *)
Record buffer := mkBuffer {
  written : bytes;
  remaining : Z;
  lastbg : option bytes
}.

Definition initial_buffer : buffer :=
  {| written := []; remaining := PROMPT_SIZE; lastbg := None |}.

(** [*(current++) = c; --remaining;] *)
Definition put (c : ascii) (b : buffer) : buffer :=
  {| written := written b ++ [c];
     remaining := remaining b - 1;
     lastbg := lastbg b |}.

Definition needs_escape (c : ascii) : bool :=
  Ascii.eqb c "$"%char || Ascii.eqb c "\"%char.

(** The inner loop of [append] on one fragment (lines 37-45). *)
Fixpoint append1 (src : bytes) (b : buffer) : buffer :=
  match src with
  | [] => b
  | c :: src' =>
      if (remaining b =? 0)%Z then b
      else
        let b1 := if needs_escape c then put "\"%char b else b in
        append1 src' (put c b1)
  end.

(** The inner loop of [appendraw] on one fragment (lines 55-58). *)
Fixpoint appendraw1 (src : bytes) (b : buffer) : buffer :=
  match src with
  | [] => b
  | c :: src' =>
      if (remaining b =? 0)%Z then b else appendraw1 src' (put c b)
  end.

(** A variadic call passes its fragments up to the terminating [NULL];
    a fragment that is itself [NULL] ends the list early. *)
Fixpoint varargs (each : bytes -> buffer -> buffer)
    (args : list (option bytes)) (b : buffer) : buffer :=
  match args with
  | Some src :: rest => varargs each rest (each src b)
  | _ => b
  end.

Definition append : list (option bytes) -> buffer -> buffer := varargs append1.
Definition appendraw : list (option bytes) -> buffer -> buffer :=
  varargs appendraw1.

(** [section] (lines 64-77). *)
Definition section (fg bg : bytes) (b : buffer) : buffer :=
  let b' :=
    match lastbg b with
    | Some last =>
        appendraw
          [Some (str " ");
           Some (str "\[" ++ [ESC] ++ str "[38;5;"); Some last;
           Some (str "m" ++ [ESC] ++ str "[48;5;"); Some bg; Some (str "m\]");
           Some (separator_glyph ++ str " ");
           Some (str "\[" ++ [ESC] ++ str "[38;5;"); Some fg; Some (str "m\]")]
          b
    | None =>
        appendraw
          [Some (str "\[" ++ [ESC] ++ str "[38;5;"); Some fg;
           Some (str "m" ++ [ESC] ++ str "[48;5;"); Some bg; Some (str "m\]")]
          b
    end in
  {| written := written b'; remaining := remaining b'; lastbg := Some bg |}.

(** [prompt_data] (lines 12-18); [getenv] may return [NULL]. *)
Record prompt_data := mkPromptData {
  user : option bytes;
  host : bytes;
  pwd : option bytes;
  cwd : option bytes;
  error : Z
}.

Definition BEL : ascii := ascii_of_nat 7.

(** [title_section] (lines 175-179). *)
Definition title_section (data : prompt_data) (b : buffer) : buffer :=
  let b := appendraw [Some (str "\[" ++ [ESC] ++ str "]0;")] b in
  let b :=
    append [user data; Some (str "@"); Some (host data); Some (str ":");
            cwd data] b in
  appendraw [Some ([BEL] ++ str "\]")] b.

(** [strcatv] (lines 79-95): the concatenation of the arguments that come
    before the first [NULL]. *)
Fixpoint strcatv (args : list (option bytes)) : bytes :=
  match args with
  | Some src :: rest => src ++ strcatv rest
  | _ => []
  end.

(* ===================================================================== *)
(** ** Reading: [read], [readp], [readf] *)
(* ===================================================================== *)

(** What successive [read] calls on a descriptor deliver: each element is
    what one call returns when the buffer has room for it.  An empty
    element is a call that returns 0. *)
Definition stream := list bytes.

Definition SSIZE_MAX : Z := (2 ^ 63 - 1)%Z.

(** [read(fd, p, count)]: the value returned and the bytes stored at [p],
    at most [count] (a [size_t]) of those the call has to deliver.  A
    count above [SSIZE_MAX], which is what a negative [int] is as a
    [size_t], makes the call fail: it returns -1 and stores nothing. *)
Definition sys_read (chunk : bytes) (count : Z) : Z * bytes :=
  if (to_size_t count <=? SSIZE_MAX)%Z then
    let data :=
      firstn (Z.to_nat (Z.min (to_size_t count) (Z.of_nat (length chunk))))
        chunk in
    (to_int (Z.of_nat (length data)), data)
  else ((-1)%Z, []).

(** The loop of [readp] (lines 114-117).  When a call returns only part of
    an element the room left is 0 and the loop ends, so the rest of that
    element is never asked for. *)
Fixpoint readp_loop (s : stream) (r : Z) (got : bytes) : bytes :=
  match s with
  | [] => got
  | chunk :: s' =>
      if (0 <? r)%Z then
        let (n, data) := sys_read chunk r in
        if (0 <? n)%Z then readp_loop s' (r - n) (got ++ data) else got
      else got
  end.

(** The loop of [readf] (lines 137-140): no test of [r]; with [r = 0] the
    call [read(fd, p, 0)] returns 0, and with [r < 0] it fails. *)
Fixpoint readf_loop (s : stream) (r : Z) (got : bytes) : bytes :=
  match s with
  | [] => got
  | chunk :: s' =>
      let (n, data) := sys_read chunk r in
      if (0 <? n)%Z then readf_loop s' (r - n) (got ++ data) else got
  end.

(** The wait status macros of <sys/wait.h> (glibc). *)
Definition WIFEXITED (wstatus : Z) : bool := (Z.land wstatus 127 =? 0)%Z.
Definition WEXITSTATUS (wstatus : Z) : Z :=
  Z.shiftr (Z.land wstatus 65280) 8.
Definition W_EXITCODE (ret sig : Z) : Z := Z.lor (Z.shiftl ret 8) sig.

(** What becomes of one [readp] call. *)
Inductive child :=
| NoChild                               (* pipe() or fork() failed *)
| NoExec                                (* execvp() returned: the child runs exit(1) *)
| Ran (out : stream) (wstatus : Z).     (* the program ran; waitpid stored wstatus *)

Definition child_output (c : child) : stream :=
  match c with Ran out _ => out | _ => [] end.

Definition child_wstatus (c : child) : Z :=
  match c with
  | NoChild => 0                        (* wstatus keeps its initial value *)
  | NoExec => W_EXITCODE 1 0
  | Ran _ ws => ws
  end.

(** Line 127: the value [readp] returns. *)
Definition exit_code (c : child) : Z :=
  let wstatus := child_wstatus c in
  if WIFEXITED wstatus then WEXITSTATUS wstatus else (-1)%Z.

(** Lines 112-122: the bytes stored from [buf] on. *)
Definition captured (c : child) (size : Z) : bytes :=
  match c with
  | NoChild => []
  | _ => readp_loop (child_output c) (to_int (to_size_t (size - 1))) []
  end.

(** [readp] (lines 97-128): the return value and the array [buf] afterwards. *)
Definition readp (c : child) (single : bool) (buf : bytes) (size : Z)
  : Z * bytes :=
  let data := captured c size in
  let p := length data in
  let p := if single && negb (p =? 0) then p - 1 else p in
  (exit_code c, poke (store buf 0 data) p NUL).

(** [readf] (lines 130-149): the array [buf] afterwards; [None] is a file
    that [open] cannot open. *)
Definition readf (file : option stream) (buf : bytes) (size : Z) : bytes :=
  match file with
  | Some s =>
      let data := readf_loop s (to_int (to_size_t (size - 1))) [] in
      let p := length data in
      let p := if negb (p =? 0) then p - 1 else p in
      poke (store buf 0 data) p NUL
  | None => poke buf 0 NUL
  end.

(* ===================================================================== *)
(** ** [split] *)
(* ===================================================================== *)

(** How many cells the cursor steps over before it stands on a NUL or on
    [sep]; [None] when it runs off the end of the array first. *)
Fixpoint scan (cells : bytes) (sep : ascii) : option nat :=
  match cells with
  | [] => None
  | c :: cells' =>
      if Ascii.eqb c NUL || Ascii.eqb c sep then Some 0
      else option_map S (scan cells' sep)
  end.

(** [split] (lines 151-158) on the array [buf] with the cursor [*next] at
    index [next]: the index of the returned segment, the array and the
    cursor afterwards.  [None]: a cell outside the array is accessed. *)
Definition split (buf : bytes) (next : nat) (sep : ascii)
  : option (nat * bytes * nat) :=
  match scan (skipn next buf) sep with
  | Some k => Some (next, poke buf (next + k) NUL, next + k + 1)
  | None => None
  end.

(* ===================================================================== *)
(** ** The outside world and the trace of system calls *)
(* ===================================================================== *)

(** The file types [lstat] tells apart ([S_ISDIR], [S_ISREG], [S_ISLNK]). *)
Inductive ftype := Directory | Regular | Symlink | OtherFile.

Inductive event :=
| Exec (argv : list string)      (* a readp call: pipe, fork, execvp *)
| Lstat (path : bytes)           (* isdir, isreg, islnk *)
| Open (path : bytes).           (* readf *)

Record world := mkWorld {
  run : list string -> child;          (* what running a command does *)
  lstat : bytes -> option ftype;       (* None: lstat fails *)
  open_rd : bytes -> option stream;    (* None: open(path, O_RDONLY) fails *)
  rpbuf_junk : nat -> ascii;           (* the cells of rpbuf on entry *)
  tmp_junk : nat -> ascii              (* the cells of tmp on entry *)
}.

(** The command lines (lines 20-26). *)
Definition rev_parse : list string :=
  ["git"; "rev-parse"; "--git-dir"; "--is-inside-git-dir";
   "--is-bare-repository"; "--is-inside-work-tree"; "--short"; "HEAD"]%string.
Definition diff : list string :=
  ["git"; "diff"; "--no-ext-diff"; "--quiet"]%string.
Definition diff_cached : list string :=
  ["git"; "diff"; "--no-ext-diff"; "--quiet"; "--cached"]%string.
Definition check_stash : list string :=
  ["git"; "rev-parse"; "--verify"; "--quiet"; "refs/stash"]%string.
Definition read_head : list string := ["git"; "symbolic-ref"; "HEAD"]%string.
Definition describe : list string :=
  ["git"; "describe"; "--contains"; "--all"; "HEAD"]%string.
Definition upstream : list string :=
  ["git"; "rev-list"; "--count"; "--left-right"; "@{upstream}...HEAD"]%string.

(** A computation that makes system calls and may access a cell outside
    an array ([None]); the list is the calls it made, in order. *)
Definition M (A : Type) : Type := option (A * list event).

Definition ret {A} (a : A) : M A := Some (a, []).

Definition bind {A B} (m : M A) (f : A -> M B) : M B :=
  match m with
  | Some (a, t) =>
      match f a with
      | Some (b, t') => Some (b, t ++ t')
      | None => None
      end
  | None => None
  end.

Notation "x <- m ;; k" := (bind m (fun x => k))
  (at level 61, m at next level, right associativity).
Notation "' pat <- m ;; k" := (bind m (fun x => match x with pat => k end))
  (at level 61, pat pattern, m at next level, right associativity).

Definition call {A} (e : event) (a : A) : M A := Some (a, [e]).

Definition checked {A} (o : option A) : M A :=
  match o with Some a => Some (a, []) | None => None end.

Section Resolver.

Variable w : world.

Definition do_readp (cmd : list string) (single : bool) (buf : bytes)
    (size : Z) : M (Z * bytes) :=
  call (Exec cmd) (readp (run w cmd) single buf size).

(** A [readf] whose result is only used as a C string, so that the
    cells of its buffer need not be known. *)
Definition do_readf (path : bytes) (size : Z) : M bytes :=
  call (Open path) (cstr (readf (open_rd w path) [] size)).

(** [isdir], [isreg], [islnk] (lines 160-173). *)
Definition is_type (t : ftype) (o : option ftype) : bool :=
  match o, t with
  | Some Directory, Directory => true
  | Some Regular, Regular => true
  | Some Symlink, Symlink => true
  | _, _ => false
  end.

Definition isdir (path : bytes) : M bool :=
  call (Lstat path) (is_type Directory (lstat w path)).
Definition isreg (path : bytes) : M bool :=
  call (Lstat path) (is_type Regular (lstat w path)).
Definition islnk (path : bytes) : M bool :=
  call (Lstat path) (is_type Symlink (lstat w path)).

(** [strcatv(tpath, git, name, NULL)] *)
Definition in_git (git : bytes) (name : string) : bytes :=
  strcatv [Some git; Some (str name)].

(** *** Step 1: the location probe is split into lines (lines 237-242) *)

Record location := mkLocation {
  git : bytes;
  inside : bytes;
  bare : bytes;
  intree : bytes;
  ssha : option bytes
}.

(** The five [split] calls on [rpbuf]; the segments are read where the
    code reads them, after the last call. *)
Definition locate (status : Z) (rpbuf : bytes) : M location :=
  '(git, m, next) <- checked (split rpbuf 0 LF) ;;
  '(inside, m, next) <- checked (split m next LF) ;;
  '(bare, m, next) <- checked (split m next LF) ;;
  '(intree, m, next) <- checked (split m next LF) ;;
  '(ssha, m) <-
    (if (status =? 0)%Z
     then '(ssha, m, _) <- checked (split m next LF) ;; ret (Some ssha, m)
     else ret (None, m)) ;;
  ret {| git := cstr_at m git;
         inside := cstr_at m inside;
         bare := cstr_at m bare;
         intree := cstr_at m intree;
         ssha := option_map (cstr_at m) ssha |}.

(** *** Step 2: the operation in progress (lines 246-270) *)

(** The arms of the chain of tests. *)
Inductive operation :=
| NoOperation
| RebaseMerge
| RebaseApply
| AmMailbox
| AmOrRebase
| Merging
| CherryPicking
| Reverting
| Bisecting.

(** The arm taken and the locals [r], [b], [step], [total] it leaves. *)
Record detection := mkDetection {
  d_op : operation;
  d_r : option bytes;
  d_b : option bytes;
  d_step : option bytes;
  d_total : option bytes
}.

Definition tagged (o : operation) (tag : string) : detection :=
  mkDetection o (Some (str tag)) None None None.

(** Lines 247-249. *)
Definition rebase_merge (git : bytes) : M detection :=
  b <- do_readf (in_git git "/rebase-merge/head-name") 256 ;;
  step <- do_readf (in_git git "/rebase-merge/msgnum") 256 ;;
  total <- do_readf (in_git git "/rebase-merge/end") 256 ;;
  ret (mkDetection RebaseMerge None (Some b) (Some step) (Some total)).

(** Lines 252-261. *)
Definition rebase_apply (git : bytes) : M detection :=
  step <- do_readf (in_git git "/rebase-apply/next") 256 ;;
  total <- do_readf (in_git git "/rebase-apply/last") 256 ;;
  rebasing <- isreg (in_git git "/rebase-apply/rebasing") ;;
  if rebasing then
    b <- do_readf (in_git git "/rebase-apply/head-name") 256 ;;
    ret (mkDetection RebaseApply (Some (str "|REBASE")) (Some b)
           (Some step) (Some total))
  else
    applying <- isreg (in_git git "/rebase-apply/applying") ;;
    if applying then
      ret (mkDetection AmMailbox (Some (str "|AM")) None
             (Some step) (Some total))
    else
      ret (mkDetection AmOrRebase (Some (str "|AM/REBASE")) None
             (Some step) (Some total)).

(** Lines 251-270: the chain below the [rebase-merge] test. *)
Definition other_operation (git : bytes) : M detection :=
  apply_dir <- isdir (in_git git "/rebase-apply") ;;
  if apply_dir then rebase_apply git
  else
    f <- isreg (in_git git "/MERGE_HEAD") ;;
    if f then ret (tagged Merging "|MERGING")
    else
      f <- isreg (in_git git "/CHERRY_PICK_HEAD") ;;
      if f then ret (tagged CherryPicking "|CHERRY-PICKING")
      else
        f <- isreg (in_git git "/REVERT_HEAD") ;;
        if f then ret (tagged Reverting "|REVERTING")
        else
          f <- isreg (in_git git "/BISECT_LOG") ;;
          if f then ret (tagged Bisecting "|BISECTING")
          else ret (mkDetection NoOperation None None None None).

(** *** Step 3: the head label (lines 273-294): [b] and [detached] *)
Definition head_label (git : bytes) (ssha : option bytes)
  : M (option bytes * bool) :=
  lnk <- islnk (in_git git "/HEAD") ;;
  if lnk then
    '(status, tmp1) <- do_readp read_head true [] 256 ;;
    ret (if (status =? 0)%Z then Some (cstr tmp1) else None, false)
  else
    head <- do_readf (in_git git "/HEAD") 256 ;;
    if strneq head (str "ref: ") 5 then ret (Some (skipn 5 head), false)
    else
      '(status, tmp1) <- do_readp describe true [] (256 - 2) ;;
      let described :=
        if negb (status =? 0)%Z then strcatv [ssha; Some (str "...")]
        else cstr tmp1 in
      ret (Some (str "(" ++ described ++ str ")"), true).

(** Lines 246-296. *)
Definition operation_and_head (git : bytes) (ssha : option bytes)
  : M (detection * bool) :=
  merge_dir <- isdir (in_git git "/rebase-merge") ;;
  if merge_dir then
    d <- rebase_merge git ;;
    ret (d, false)
  else
    d <- other_operation git ;;
    match d_b d with
    | Some _ => ret (d, false)
    | None =>
        '(b, detached) <- head_label git ssha ;;
        ret (mkDetection (d_op d) (d_r d) b (d_step d) (d_total d), detached)
    end.

(** Lines 298-300. *)
Definition strip_heads (b : option bytes) : option bytes :=
  match b with
  | Some l => if strneq l (str "refs/heads/") 11 then Some (skipn 11 l) else b
  | None => None
  end.

(** *** Step 4: the progress suffix (lines 302-304) *)

(** [strcatv] into an array of [size] cells: the string and its terminator
    are stored without a test of the room; [None] when that ends behind
    the array. *)
Definition strcatv_into (size : nat) (args : list (option bytes))
  : option bytes :=
  let text := strcatv args in
  if length text <? size then Some text else None.

(** [r] after lines 302-304, the concatenation being stored in
    [tmp4[256]]. *)
Definition with_progress (r step total : option bytes)
  : option (option bytes) :=
  match step, total with
  | Some _, Some _ =>
      option_map (@Some bytes)
        (strcatv_into 256 [r; Some (str " "); step; Some (str "/"); total])
  | _, _ => Some r
  end.

(** *** Step 6: the work tree probes (lines 313-336) *)

(** Lines 326-335: [p] from the upstream counts left in [tmp]. *)
Definition upstream_mark (tmp : bytes) : M (option bytes) :=
  if streq (cstr tmp) (str "0" ++ [TAB] ++ str "0") then ret (Some [])
  else
    '(rmt, tmp, next) <- checked (split tmp 0 TAB) ;;
    '(loc, tmp, _) <- checked (split tmp next TAB) ;;
    ret (Some (if streq (cstr_at tmp rmt) (str "0") then up_arrow
               else if streq (cstr_at tmp loc) (str "0") then down_arrow
               else updown_arrow)).

(** The locals [w], [i], [s], [p]. *)
Record probes := mkProbes {
  p_w : option bytes;
  p_i : option bytes;
  p_s : option bytes;
  p_p : option bytes
}.

Definition no_probes : probes := mkProbes None None None None.

Definition worktree_probes (ssha : option bytes) : M probes :=
  let tmp := array (tmp_junk w) 256 in
  '(status, tmp) <- do_readp diff false tmp 256 ;;
  let w' := if negb (status =? 0)%Z then Some (str "*") else None in
  '(status, tmp) <- do_readp diff_cached false tmp 256 ;;
  let i :=
    if negb (status =? 0)%Z then Some (str "+")
    else match ssha with None => Some (str "#") | Some _ => None end in
  '(status, tmp) <- do_readp check_stash false tmp 256 ;;
  let s := if (status =? 0)%Z then Some (str "$") else None in
  '(status, tmp) <- do_readp upstream true tmp 256 ;;
  p <- (if (status =? 0)%Z then upstream_mark tmp else ret None) ;;
  ret (mkProbes w' i s p).

(** *** The locals when the output is assembled (line 339) *)
Record summary := mkSummary {
  v_op : operation;
  v_c : option bytes;
  v_b : option bytes;
  v_w : option bytes;
  v_i : option bytes;
  v_s : option bytes;
  v_r : option bytes;
  v_p : option bytes;
  v_detached : bool
}.

(** Lines 237-337. *)
Definition resolve (status : Z) (rpbuf : bytes) : M summary :=
  l <- locate status rpbuf ;;
  '(d, detached) <- operation_and_head (git l) (ssha l) ;;
  let b := strip_heads (d_b d) in
  r <- checked (with_progress (d_r d) (d_step d) (d_total d)) ;;
  if streq (inside l) (str "true") then
    if streq (bare l) (str "true") then
      ret (mkSummary (d_op d) (Some (str "BARE:")) b None None None r None
             detached)
    else
      ret (mkSummary (d_op d) None (Some (str "GIT_DIR!")) None None None r
             None detached)
  else if streq (intree l) (str "true") then
    q <- worktree_probes (ssha l) ;;
    ret (mkSummary (d_op d) None b (p_w q) (p_i q) (p_s q) r (p_p q) detached)
  else
    ret (mkSummary (d_op d) None b None None None r None detached).

(** *** Step 7 and the output (lines 339-350) *)

Definition is_set (o : option bytes) : bool :=
  match o with Some _ => true | None => false end.

(** [if (x) append(x, NULL);] *)
Definition append_if (x : option bytes) (buf : buffer) : buffer :=
  match x with Some _ => append [x] buf | None => buf end.

Definition dirty (v : summary) : bool :=
  v_detached v || is_set (v_w v) || is_set (v_i v) || is_set (v_s v).

Definition render (v : summary) (buf : buffer) : buffer :=
  let buf :=
    section (str (if dirty v then "15" else "0"))
            (str (if dirty v then "125" else "148")) buf in
  let buf := append_if (v_c v) buf in
  let buf := append_if (v_b v) buf in
  let buf :=
    if is_set (v_w v) || is_set (v_i v) || is_set (v_s v) then
      append_if (v_s v)
        (append_if (v_i v) (append_if (v_w v) (append [Some (str " ")] buf)))
    else buf in
  let buf := append_if (v_r v) buf in
  append_if (v_p v) buf.

(** *** [git_section] (lines 232-352) *)

(** The repository state, or [None] when the location probe left [rpbuf]
    empty. *)
Definition repository_state : M (option summary) :=
  '(status, rpbuf) <-
    do_readp rev_parse false (array (rpbuf_junk w) 256) 256 ;;
  if negb (Ascii.eqb (nth 0 rpbuf NUL) NUL) then
    v <- resolve status rpbuf ;;
    ret (Some v)
  else ret None.

Definition git_section (buf : buffer) : M buffer :=
  v <- repository_state ;;
  match v with
  | Some v => ret (render v buf)
  | None => ret buf
  end.

End Resolver.

(* ===================================================================== *)
(** ** The repository state read off the locals *)
(* ===================================================================== *)

(** The markers the source uses for the index ([i]) and for the upstream
    ([p]). *)
Inductive index_state := Clean | Staged | NoCommitsYet.

Definition index_mark (x : index_state) : option bytes :=
  match x with
  | Clean => None
  | Staged => Some (str "+")
  | NoCommitsYet => Some (str "#")
  end.

Inductive divergence := NoUpstream | InSync | Ahead | Behind | Diverged.

Definition divergence_mark (d : divergence) : option bytes :=
  match d with
  | NoUpstream => None
  | InSync => Some []
  | Ahead => Some up_arrow
  | Behind => Some down_arrow
  | Diverged => Some updown_arrow
  end.

(** The priority of the operations as an ordered list of rules, the first
    rule whose test holds giving the operation. *)
Fixpoint first_match (rules : list (bool * operation)) : operation :=
  match rules with
  | [] => NoOperation
  | (true, o) :: _ => o
  | (false, _) :: rest => first_match rest
  end.

Definition has_dir (w : world) (git : bytes) (name : string) : bool :=
  is_type Directory (lstat w (in_git git name)).
Definition has_file (w : world) (git : bytes) (name : string) : bool :=
  is_type Regular (lstat w (in_git git name)).

Definition apply_variant (w : world) (git : bytes) : operation :=
  if has_file w git "/rebase-apply/rebasing" then RebaseApply
  else if has_file w git "/rebase-apply/applying" then AmMailbox
  else AmOrRebase.

Definition priority_rules (w : world) (git : bytes)
  : list (bool * operation) :=
  [(has_dir w git "/rebase-merge", RebaseMerge);
   (has_dir w git "/rebase-apply", apply_variant w git);
   (has_file w git "/MERGE_HEAD", Merging);
   (has_file w git "/CHERRY_PICK_HEAD", CherryPicking);
   (has_file w git "/REVERT_HEAD", Reverting);
   (has_file w git "/BISECT_LOG", Bisecting)].

(** The tag that each arm gives [r] (lines 256-269); the [rebase-merge]
    arm gives none. *)
Definition operation_tag (o : operation) : option bytes :=
  match o with
  | NoOperation => None
  | RebaseMerge => None
  | RebaseApply => Some (str "|REBASE")
  | AmMailbox => Some (str "|AM")
  | AmOrRebase => Some (str "|AM/REBASE")
  | Merging => Some (str "|MERGING")
  | CherryPicking => Some (str "|CHERRY-PICKING")
  | Reverting => Some (str "|REVERTING")
  | Bisecting => Some (str "|BISECTING")
  end.

(** The counts that [git rev-list --count --left-right] prints, in decimal. *)
Definition decimal (n : N) : bytes :=
  str (NilZero.string_of_uint (N.to_uint n)).

Definition classify (behind ahead : N) : divergence :=
  if (behind =? 0)%N && (ahead =? 0)%N then InSync
  else if (behind =? 0)%N then Ahead
  else if (ahead =? 0)%N then Behind
  else Diverged.

(** A character that [split] steps over. *)
Definition field_char (sep c : ascii) : bool :=
  negb (Ascii.eqb c NUL || Ascii.eqb c sep).

(** The location probe of line 234: its exit status and [rpbuf]. *)
Definition location_probe (w : world) : Z * bytes :=
  readp (run w rev_parse) false (array (rpbuf_junk w) 256) 256.

(** The array [tmp] when [upstream_mark] reads it. *)
Definition tmp_at_upstream (w : world) : bytes :=
  let tmp := array (tmp_junk w) 256 in
  let tmp := snd (readp (run w diff) false tmp 256) in
  let tmp := snd (readp (run w diff_cached) false tmp 256) in
  let tmp := snd (readp (run w check_stash) false tmp 256) in
  snd (readp (run w upstream) true tmp 256).


(* ===================================================================== *)
(** ** Example worlds *)
(* ===================================================================== *)

Fixpoint lookup {A} (k : bytes) (l : list (bytes * A)) : option A :=
  match l with
  | [] => None
  | (k', a) :: l' => if streq k k' then Some a else lookup k l'
  end.

Fixpoint argv_eqb (a b : list string) : bool :=
  match a, b with
  | [], [] => true
  | x :: a', y :: b' => String.eqb x y && argv_eqb a' b'
  | _, _ => false
  end.

(** Commands that are not listed cannot be run. *)
Fixpoint lookup_cmd (k : list string) (l : list (list string * child))
  : child :=
  match l with
  | [] => NoExec
  | (k', c) :: l' => if argv_eqb k k' then c else lookup_cmd k l'
  end.

(** A child that writes [out] in one piece and calls [exit(code)]. *)
Definition exited (code : Z) (out : bytes) : child :=
  Ran (match out with [] => [] | _ => [out] end) (W_EXITCODE code 0).

Definition line (s : string) : bytes := str s ++ [LF].

Definition make_world (cmds : list (list string * child))
    (types : list (bytes * ftype)) (files : list (bytes * stream)) : world :=
  {| run := fun cmd => lookup_cmd cmd cmds;
     lstat := fun path => lookup path types;
     open_rd := fun path => lookup path files;
     rpbuf_junk := fun _ => "x"%char;
     tmp_junk := fun _ => "y"%char |}.

(** A work tree on [main] with a modified file, [behind] commits behind
    and [ahead] commits ahead of its upstream. *)
Definition worktree_cmds (behind ahead : N) : list (list string * child) :=
  [(rev_parse,
    exited 0 (line ".git" ++ line "false" ++ line "false" ++ line "true"
              ++ line "abc1234"));
   (diff, exited 1 []);
   (diff_cached, exited 0 []);
   (check_stash, exited 1 []);
   (upstream, exited 0 (decimal behind ++ [TAB] ++ decimal ahead ++ [LF]))].

Definition head_on_main : bytes * stream :=
  (str ".git/HEAD", [line "ref: refs/heads/main"]).

Definition upstream_world (behind ahead : N) : world :=
  make_world (worktree_cmds behind ahead) [(str ".git/HEAD", Regular)]
    [head_on_main].

(** The same work tree in the middle of an interactive rebase, step 2 of
    5, that has also left a [MERGE_HEAD] behind. *)
Definition rebase_merge_world : world :=
  make_world (worktree_cmds 2 3)
    [(str ".git/rebase-merge", Directory);
     (str ".git/MERGE_HEAD", Regular);
     (str ".git/HEAD", Regular)]
    [(str ".git/rebase-merge/head-name", [line "refs/heads/feature/x"]);
     (str ".git/rebase-merge/msgnum", [line "2"]);
     (str ".git/rebase-merge/end", [line "5"]);
     head_on_main].

(** No git in [PATH]. *)
Definition no_git_world : world := make_world [] [] [].



(** A repository without commits: [rev-parse] prints four lines and fails
    on [HEAD]. *)
Definition unborn_world : world :=
  make_world
    [(rev_parse,
      exited 128 (line ".git" ++ line "false" ++ line "false" ++ line "true"));
     (diff, exited 0 []);
     (diff_cached, exited 0 []);
     (check_stash, exited 1 []);
     (upstream, exited 128 [])]
    [(str ".git/HEAD", Regular)] [head_on_main].

(** A directory [depth] levels down, each level a name of 254 letters. *)
Definition deep_directory (depth : nat) : bytes :=
  concat (repeat (str "/" ++ repeat "a"%char 254) depth).

(** A repository one such level down, seen from one of its
    subdirectories: [rev-parse] prints the absolute path of the git
    directory, 260 bytes, and the four other lines. *)
Definition deep_repository_world : world :=
  make_world
    [(rev_parse,
      exited 0 (deep_directory 1 ++ line "/.git" ++ line "false"
                ++ line "false" ++ line "true" ++ line "abc1234"))]
    [] [].

(** A user in a directory sixteen levels down whose last name has a
    dollar sign: a path of 4087 bytes. *)
Definition deep_prompt_data : prompt_data :=
  {| user := Some (str "u");
     host := str "h";
     pwd := Some (deep_directory 16 ++ str "/aaaa$x");
     cwd := Some (deep_directory 16 ++ str "/aaaa$x");
     error := 0 |}.

(* ===================================================================== *)
(** ** Tactics *)
(* ===================================================================== *)

(** Case analysis on every [lstat] probe of the goal. *)
Ltac probe_cases :=
  repeat match goal with
  | |- context [is_type ?t (lstat ?w ?p)] =>
      destruct (is_type t (lstat w p)) eqn:?
  end.

(* ===================================================================== *)
(** ** The other sections of the prompt and what [main] prepares *)
(* ===================================================================== *)

(** What [append] stores for a fragment when nothing stops it: a
    backslash before every dollar sign and every backslash. *)
Fixpoint escape (src : bytes) : bytes :=
  match src with
  | [] => []
  | c :: src' =>
      (if needs_escape c then ["\"%char; c] else [c]) ++ escape src'
  end.

(** The fragments of a call none of which is [NULL]. *)
Definition fragments (frags : list bytes) : list (option bytes) :=
  map (@Some bytes) frags.

(** The escape sequences of [section], as one text. *)
Definition section_text (last : option bytes) (fg bg : bytes) : bytes :=
  match last with
  | Some l =>
      str " " ++ (str "\[" ++ [ESC] ++ str "[38;5;") ++ l
      ++ (str "m" ++ [ESC] ++ str "[48;5;") ++ bg ++ str "m\]"
      ++ (separator_glyph ++ str " ")
      ++ (str "\[" ++ [ESC] ++ str "[38;5;") ++ fg ++ str "m\]"
  | None =>
      (str "\[" ++ [ESC] ++ str "[38;5;") ++ fg
      ++ (str "m" ++ [ESC] ++ str "[48;5;") ++ bg ++ str "m\]"
  end.

(** [user_host_section] (lines 181-184). *)
Definition user_host_section (data : prompt_data) (b : buffer) : buffer :=
  append [user data; Some (str "@"); Some (host data)]
    (section (str "253") (str "242") b).

(** The loop of [cwd_section] (lines 194-196) on the index of [sdir]:
    back while [sdir > dir] and the character before is not a slash. *)
Fixpoint back_to_slash (dir : bytes) (sdir : nat) : nat :=
  match sdir with
  | 0 => 0
  | S before =>
      if Ascii.eqb (nth before dir NUL) "/"%char then sdir
      else back_to_slash dir before
  end.

(** Lines 187-197: the directory that is shown. *)
Definition short_dir (dir : bytes) : bytes :=
  let len := length dir in
  if len <? 2 then dir else skipn (back_to_slash dir (len - 2)) dir.

(** [cwd_section] (lines 186-201), for a [cwd] that is not [NULL]. *)
Definition cwd_section (dir : bytes) (b : buffer) : buffer :=
  append [Some (short_dir dir)] (section (str "15") (str "32") b).

(** [status_section] (lines 210-213). *)
Definition status_section (data : prompt_data) (b : buffer) : buffer :=
  append [Some (str "$")]
    (section (str (if (error data =? 0)%Z then "40" else "160")) (str "0") b).

(** [final_section] (lines 354-356). *)
Definition final_section (b : buffer) : buffer :=
  appendraw [Some (str "\[" ++ [ESC] ++ str "[m\] ")] b.


(** Line 367 of [main]: [argc == 2 && strcmp(argv[1], "0") != 0]. *)
Definition error_flag (argv : list bytes) : Z :=
  if (length argv =? 2) && negb (streq (nth 1 argv []) (str "0")) then 1%Z
  else 0%Z.

(** A character that is not a slash. *)
Definition not_slash (c : ascii) : bool := negb (Ascii.eqb c "/"%char).

(** The commands of a trace, in the order they were run. *)
Definition commands (t : list event) : list (list string) :=
  flat_map (fun e => match e with Exec cmd => [cmd] | _ => [] end) t.

(** The four commands of the work tree probes. *)
Definition worktree_commands : list (list string) :=
  [diff; diff_cached; check_stash; upstream].

(** The text of a local that may be [NULL]. *)
Definition text_of (o : option bytes) : bytes :=
  match o with Some x => x | None => [] end.

(** The text of the git section before escaping (lines 341-350). *)
Definition summary_text (v : summary) : bytes :=
  text_of (v_c v) ++ text_of (v_b v)
  ++ (if is_set (v_w v) || is_set (v_i v) || is_set (v_s v)
      then str " " ++ text_of (v_w v) ++ text_of (v_i v) ++ text_of (v_s v)
      else [])
  ++ text_of (v_r v) ++ text_of (v_p v).

(** The colours of the git section (line 340). *)
Definition summary_fg (v : summary) : bytes :=
  str (if dirty v then "15" else "0").
Definition summary_bg (v : summary) : bytes :=
  str (if dirty v then "125" else "148").

(** A work tree in the middle of [git rebase], patch 3 of 7, by way of
    [rebase-apply]. *)
Definition rebase_apply_world : world :=
  make_world (worktree_cmds 0 0)
    [(str ".git/rebase-apply", Directory);
     (str ".git/rebase-apply/rebasing", Regular);
     (str ".git/HEAD", Regular)]
    [(str ".git/rebase-apply/next", [line "3"]);
     (str ".git/rebase-apply/last", [line "7"]);
     (str ".git/rebase-apply/head-name", [line "refs/heads/topic"]);
     head_on_main].


(** The work tree of [upstream_world] with a change added to the index. *)
Definition staged_world : world :=
  make_world
    [(rev_parse,
      exited 0 (line ".git" ++ line "false" ++ line "false" ++ line "true"
                ++ line "abc1234"));
     (diff, exited 0 []);
     (diff_cached, exited 1 []);
     (check_stash, exited 1 []);
     (upstream, exited 0 (decimal 0 ++ [TAB] ++ decimal 0 ++ [LF]))]
    [(str ".git/HEAD", Regular)] [head_on_main].

(* ===================================================================== *)
(** * Properties *)
(* ===================================================================== *)

(** ** The monad *)

Lemma bind_Some {A B} (m : M A) (f : A -> M B) (b : B) (t : list event) :
  bind m f = Some (b, t) ->
  exists a t1 t2, m = Some (a, t1) /\ f a = Some (b, t2) /\ t = t1 ++ t2.
Proof.
  unfold bind. destruct m as [[a t1]|]; [|discriminate].
  destruct (f a) as [[b' t2]|] eqn:E; [|discriminate].
  intros H. inversion H; subst. now exists a, t1, t2.
Qed.

Lemma bind_call {A B} (e : event) (a : A) (f : A -> M B) :
  bind (call e a) f =
  match f a with Some (b, t) => Some (b, e :: t) | None => None end.
Proof. unfold bind, call. now destruct (f a) as [[b t]|]. Qed.

Lemma bind_ret {A B} (a : A) (f : A -> M B) : bind (ret a) f = f a.
Proof. unfold bind, ret. now destruct (f a) as [[b t]|]. Qed.

Lemma bind_do_readp {B} (w : world) (cmd : list string) (single : bool)
    (buf : bytes) (size : Z) (f : Z * bytes -> M B) :
  bind (do_readp w cmd single buf size) f =
  match f (exit_code (run w cmd), snd (readp (run w cmd) single buf size)) with
  | Some (b, t) => Some (b, Exec cmd :: t)
  | None => None
  end.
Proof. unfold do_readp. now rewrite bind_call. Qed.

(** ** Integer conversions *)

Lemma to_size_t_small (z : Z) :
  (0 <= z < 2 ^ 64)%Z -> to_size_t z = z.
Proof. intros H. unfold to_size_t. now apply Z.mod_small. Qed.

Lemma to_int_small (z : Z) :
  (- 2 ^ 31 <= z < 2 ^ 31)%Z -> to_int z = z.
Proof.
  intros H. unfold to_int.
  rewrite Z.mod_small; [lia|].
  change (2 ^ 32)%Z with (2 ^ 31 + 2 ^ 31)%Z. lia.
Qed.

Lemma room_of_size (size : Z) :
  (1 <= size <= 2 ^ 31)%Z -> to_int (to_size_t (size - 1)) = (size - 1)%Z.
Proof.
  intros H.
  assert (2 ^ 31 < 2 ^ 64)%Z by reflexivity.
  rewrite to_size_t_small by lia.
  apply to_int_small.
  assert (0 < 2 ^ 31)%Z by reflexivity. lia.
Qed.

(** ** The [read] loops *)

Lemma sys_read_small (chunk : bytes) (r : Z) :
  (0 <= r < 2 ^ 31)%Z ->
  sys_read chunk r
  = (Z.min r (Z.of_nat (length chunk)), firstn (Z.to_nat r) chunk).
Proof.
  intros H. unfold sys_read.
  assert (2 ^ 31 < 2 ^ 63 - 1)%Z by reflexivity.
  assert (2 ^ 63 - 1 < 2 ^ 64)%Z by reflexivity.
  rewrite to_size_t_small by lia.
  destruct (Z.leb_spec r SSIZE_MAX) as [_|Hgt]; [|unfold SSIZE_MAX in Hgt; lia].
  assert (firstn (Z.to_nat (Z.min r (Z.of_nat (length chunk)))) chunk
          = firstn (Z.to_nat r) chunk) as ->.
  { destruct (Z.le_gt_cases r (Z.of_nat (length chunk))) as [Hle|Hgt].
    - now rewrite Z.min_l.
    - rewrite Z.min_r by lia. rewrite Nat2Z.id.
      rewrite !firstn_all2; trivial; lia. }
  rewrite length_firstn, to_int_small; [f_equal; lia|].
  assert (0 < 2 ^ 31)%Z by reflexivity. lia.
Qed.

(** A negative room is a count that [read] refuses. *)
Lemma sys_read_negative (chunk : bytes) (r : Z) :
  (- 2 ^ 31 <= r < 0)%Z -> sys_read chunk r = ((-1)%Z, []).
Proof.
  intros H. unfold sys_read, to_size_t.
  assert (2 ^ 31 < 2 ^ 63)%Z by reflexivity.
  assert (2 ^ 64 = 2 ^ 63 + 2 ^ 63)%Z by reflexivity.
  replace (r mod 2 ^ 64)%Z with (r + 2 ^ 64)%Z.
  - destruct (Z.leb_spec (r + 2 ^ 64) SSIZE_MAX) as [Hle|_]; [|reflexivity].
    unfold SSIZE_MAX in Hle. lia.
  - symmetry. rewrite <- (Z.mod_add r 1 (2 ^ 64)) by lia.
    apply Z.mod_small. lia.
Qed.

(** Both loops store the first [r] bytes of what the descriptor delivers. *)
Lemma firstn_chunk (chunk rest : bytes) (r : Z) :
  (0 <= r)%Z ->
  firstn (Z.to_nat r) (chunk ++ rest) =
  firstn (Z.to_nat r) chunk ++
  firstn (Z.to_nat (r - Z.min r (Z.of_nat (length chunk)))) rest.
Proof.
  intros H. rewrite firstn_app. f_equal. f_equal. lia.
Qed.

Lemma readf_loop_spec (s : stream) :
  Forall (fun chunk => chunk <> []) s ->
  forall (r : Z) (got : bytes),
    (0 <= r < 2 ^ 31)%Z ->
    readf_loop s r got = got ++ firstn (Z.to_nat r) (concat s).
Proof.
  induction 1 as [|chunk s Hne _ IH]; intros r got Hr; simpl.
  - now rewrite firstn_nil, app_nil_r.
  - rewrite sys_read_small by assumption.
    rewrite firstn_chunk by lia.
    destruct (Z.ltb_spec 0 (Z.min r (Z.of_nat (length chunk)))) as [Hpos|Hzero].
    + rewrite IH by lia. now rewrite <- app_assoc.
    + assert (r = 0%Z) as ->.
      { destruct chunk; [congruence|]. simpl length in Hzero. lia. }
      replace (Z.to_nat (0 - _)) with 0 by lia.
      now rewrite !firstn_O, app_nil_r.
Qed.

Lemma readp_loop_spec (s : stream) :
  Forall (fun chunk => chunk <> []) s ->
  forall (r : Z) (got : bytes),
    (0 <= r < 2 ^ 31)%Z ->
    readp_loop s r got = got ++ firstn (Z.to_nat r) (concat s).
Proof.
  induction 1 as [|chunk s Hne _ IH]; intros r got Hr; simpl.
  - now rewrite firstn_nil, app_nil_r.
  - destruct (Z.ltb_spec 0 r) as [Hr0|Hr0].
    + rewrite sys_read_small by assumption.
      rewrite firstn_chunk by lia.
      destruct (Z.ltb_spec 0 (Z.min r (Z.of_nat (length chunk))))
        as [Hpos|Hzero].
      * rewrite IH by lia. now rewrite <- app_assoc.
      * destruct chunk; [congruence|]. simpl length in Hzero. lia.
    + assert (r = 0%Z) as -> by lia. simpl. now rewrite app_nil_r.
Qed.

(** ** C strings in arrays *)

Lemma cstr_app_NUL (xs rest : bytes) : cstr (xs ++ NUL :: rest) = cstr xs.
Proof.
  induction xs as [|c xs IH]; simpl; [reflexivity|].
  destruct (Ascii.eqb c NUL); [reflexivity|]. now rewrite IH.
Qed.

Lemma cstr_clean (xs : bytes) :
  forallb (fun c => negb (Ascii.eqb c NUL)) xs = true -> cstr xs = xs.
Proof.
  induction xs as [|c xs IH]; simpl; [reflexivity|].
  destruct (Ascii.eqb c NUL); simpl; [discriminate|].
  intros H. now rewrite IH.
Qed.

Lemma store_0 (m data : bytes) :
  store m 0 data = data ++ skipn (length data) m.
Proof. reflexivity. Qed.

Lemma firstn_length_app (a b : bytes) : firstn (length a) (a ++ b) = a.
Proof.
  rewrite firstn_app, firstn_all, Nat.sub_diag. simpl. apply app_nil_r.
Qed.

Lemma skipn_length_app (a b : bytes) (k : nat) :
  skipn (length a + k) (a ++ b) = skipn k b.
Proof.
  rewrite skipn_app, skipn_all2 by lia. simpl. f_equal. lia.
Qed.

(** The terminator that [readp] (in [single] mode) and [readf] store on
    the last byte they read. *)
Lemma poke_last (data m : bytes) :
  data <> [] ->
  poke (store m 0 data) (length data - 1) NUL =
  removelast data ++ NUL :: skipn (length data) m.
Proof.
  intros Hne.
  destruct (exists_last Hne) as [body [c ->]].
  rewrite removelast_last. unfold poke. rewrite store_0.
  rewrite length_app. simpl length.
  replace (length body + 1 - 1) with (length body) by lia.
  unfold store. rewrite <- app_assoc.
  rewrite firstn_length_app, skipn_length_app. reflexivity.
Qed.

(** The terminator that [readp] stores behind what it read otherwise. *)
Lemma poke_end (data m : bytes) :
  poke (store m 0 data) (length data) NUL =
  data ++ NUL :: skipn (length data + 1) m.
Proof.
  unfold poke. rewrite store_0. unfold store.
  rewrite firstn_length_app, skipn_length_app.
  simpl length. rewrite skipn_skipn.
  now replace (1 + length data) with (length data + 1) by lia.
Qed.

(** The string that [readf] and [readp] leave does not depend on what
    was in the array before, which is why the resolver's [tmp1] to [tmp4]
    are not modelled cell by cell. *)
Lemma readf_any_buffer (file : option stream) (buf : bytes) (size : Z) :
  cstr (readf file buf size) = cstr (readf file [] size).
Proof.
  destruct file as [s|]; [|reflexivity]. unfold readf.
  destruct (readf_loop s _ []) as [|c data] eqn:E; [reflexivity|].
  change (negb (length (c :: data) =? 0)) with true. cbv iota.
  rewrite !poke_last by discriminate. now rewrite !cstr_app_NUL.
Qed.

Lemma readp_any_buffer (c : child) (single : bool) (buf : bytes) (size : Z) :
  cstr (snd (readp c single buf size)) = cstr (snd (readp c single [] size)).
Proof.
  unfold readp. simpl snd.
  destruct (captured c size) as [|x data] eqn:E.
  - now destruct single.
  - change (negb (length (x :: data) =? 0)) with true.
    destruct single; simpl andb; cbv iota.
    + rewrite !poke_last by discriminate. now rewrite !cstr_app_NUL.
    + rewrite !poke_end. now rewrite !cstr_app_NUL.
Qed.

(** ** [readf] *)

Lemma to_int_range (z : Z) : (- 2 ^ 31 <= to_int z < 2 ^ 31)%Z.
Proof.
  unfold to_int.
  pose proof (Z.mod_pos_bound (z + 2 ^ 31) (2 ^ 32) eq_refl) as H.
  assert (2 ^ 32 = 2 ^ 31 + 2 ^ 31)%Z by reflexivity. lia.
Qed.

(** [readf] stores at most [r] bytes, and none when [r] is negative. *)
Lemma readf_loop_length (s : stream) :
  forall (r : Z) (got : bytes),
    (- 2 ^ 31 <= r < 2 ^ 31)%Z ->
    (Z.of_nat (length (readf_loop s r got))
     <= Z.of_nat (length got) + Z.max 0 r)%Z.
Proof.
  induction s as [|chunk s IH]; intros r got Hr; simpl; [lia|].
  destruct (Z.lt_ge_cases r 0) as [Hneg|Hpos0].
  - rewrite sys_read_negative by lia. simpl. lia.
  - rewrite sys_read_small by lia.
    destruct (Z.ltb_spec 0 (Z.min r (Z.of_nat (length chunk))))
      as [Hpos|Hzero]; [|lia].
    assert (- 2 ^ 31 <= r - Z.min r (Z.of_nat (length chunk)) < 2 ^ 31)%Z
      as Hr' by lia.
    specialize (IH _ (got ++ firstn (Z.to_nat r) chunk) Hr').
    rewrite length_app, length_firstn in IH. lia.
Qed.

Lemma readf_memory (s : stream) (buf : bytes) (size : Z) :
  let data := readf_loop s (to_int (to_size_t (size - 1))) [] in
  readf (Some s) buf size =
  match data with
  | [] => poke buf 0 NUL
  | _ => removelast data ++ NUL :: skipn (length data) buf
  end.
Proof.
  intros data. unfold readf. fold data.
  destruct data as [|c data'] eqn:E; [reflexivity|].
  change (negb (length (c :: data') =? 0)) with true. cbv iota.
  now rewrite poke_last.
Qed.

Lemma room_bound (size : Z) :
  (0 <= size)%Z ->
  (Z.max 0 (to_int (to_size_t (size - 1))) <= Z.max 0 (size - 1))%Z.
Proof.
  intros Hsize.
  destruct (Z.eq_dec size 0) as [->|Hnz]; [vm_compute; discriminate|].
  unfold to_int, to_size_t.
  assert (0 <= (size - 1) mod 2 ^ 64 <= size - 1)%Z as Hm.
  { split; [apply Z.mod_pos_bound; reflexivity|].
    apply Z.mod_le; [lia|reflexivity]. }
  pose proof (Z.mod_le ((size - 1) mod 2 ^ 64 + 2 ^ 31) (2 ^ 32)) as Hle.
  assert (0 < 2 ^ 31)%Z by reflexivity.
  assert (0 < 2 ^ 32)%Z by reflexivity.
  lia.
Qed.

(** C7 (amended): for every buffer size [readf] stores at most
    [size - 1] bytes, none when the size is 0, and the first [size - 1]
    of the file when the size is at most 2^31 and every [read] delivers
    some; it then puts the terminator on the last byte it stored,
    whatever that byte is, so the string returned is the stored bytes
    without the last one (up to a NUL among them); and a file that cannot
    be opened gives the empty string. *)
Theorem readf_drops_last_byte (s : stream) (buf : bytes) (size : Z) :
  (0 <= size)%Z ->
  let data := readf_loop s (to_int (to_size_t (size - 1))) [] in
  (Z.of_nat (length data) <= Z.max 0 (size - 1))%Z /\
  ((1 <= size <= 2 ^ 31)%Z ->
   Forall (fun chunk => chunk <> []) s ->
   data = firstn (Z.to_nat (size - 1)) (concat s)) /\
  readf (Some s) buf size =
    match data with
    | [] => poke buf 0 NUL
    | _ => removelast data ++ NUL :: skipn (length data) buf
    end /\
  cstr (readf (Some s) buf size) = cstr (removelast data) /\
  cstr (readf None buf size) = [].
Proof.
  intros Hsize data.
  assert (0 < 2 ^ 31)%Z by reflexivity.
  split; [|split; [|split; [|split]]].
  - unfold data.
    pose proof (readf_loop_length s (to_int (to_size_t (size - 1))) []
                  (to_int_range _)) as Hlen.
    pose proof (room_bound size Hsize).
    simpl length in Hlen. lia.
  - intros Hrange Hs. unfold data. rewrite room_of_size by assumption.
    now rewrite readf_loop_spec by (trivial; lia).
  - apply readf_memory.
  - rewrite readf_memory. fold data.
    destruct data as [|c data']; [reflexivity|].
    apply cstr_app_NUL.
  - reflexivity.
Qed.

Lemma readf_drops_last_byte_witness :
  (0 <= 256)%Z /\
  cstr (readf (Some [str "refs/heads/main"; [LF]])
          (array (fun _ => "x"%char) 256) 256) = str "refs/heads/main" /\
  cstr (readf (Some [str "refs/heads/main"])
          (array (fun _ => "x"%char) 256) 256) = str "refs/heads/mai".
Proof.
  assert (0 <= 256)%Z as Hsize by (vm_compute; discriminate).
  split; [exact Hsize|]. split.
  - destruct (readf_drops_last_byte [str "refs/heads/main"; [LF]]
                (array (fun _ => "x"%char) 256) _ Hsize) as (_ & _ & _ & H & _).
    etransitivity; [exact H | reflexivity].
  - destruct (readf_drops_last_byte [str "refs/heads/main"]
                (array (fun _ => "x"%char) 256) _ Hsize) as (_ & _ & _ & H & _).
    etransitivity; [exact H | reflexivity].
Defined.

(** C7 as stated fails: a file whose last character is not a line
    separator loses that character. *)
Lemma readf_trims_a_letter :
  last (str "ab") NUL <> LF /\
  cstr (readf (Some [str "ab"]) (array (fun _ => "x"%char) 256) 256)
  <> str "ab".
Proof. split; vm_compute; discriminate. Qed.

(** ** [readp] *)

Lemma WEXITSTATUS_range (wstatus : Z) : (0 <= WEXITSTATUS wstatus <= 255)%Z.
Proof.
  unfold WEXITSTATUS.
  rewrite Z.shiftr_land.
  change (Z.shiftr 65280 8) with (Z.ones 8).
  rewrite Z.land_ones by lia.
  pose proof (Z.mod_pos_bound (Z.shiftr wstatus 8) (2 ^ 8) eq_refl).
  change (2 ^ 8)%Z with 256%Z in *. lia.
Qed.

(** C8 (amended): when the command cannot be executed the child calls
    [exit(1)], so [readp] returns 1 and captures nothing; the value it
    reserves, -1, is returned exactly when the child did not end by
    exiting, and every other return value is an exit status in 0..255. *)
Theorem readp_exec_failure (single : bool) (buf : bytes) (size : Z) :
  fst (readp NoExec single buf size) = 1%Z /\
  cstr (snd (readp NoExec single buf size)) = [] /\
  (forall c : child,
     fst (readp c single buf size) = (-1)%Z <->
     WIFEXITED (child_wstatus c) = false) /\
  (forall c : child,
     WIFEXITED (child_wstatus c) = true ->
     (0 <= fst (readp c single buf size) <= 255)%Z).
Proof.
  split; [|split; [|split]].
  - reflexivity.
  - now destruct single.
  - intros c. unfold readp, exit_code; simpl. split.
    + destruct (WIFEXITED (child_wstatus c)); [|reflexivity].
      pose proof (WEXITSTATUS_range (child_wstatus c)). lia.
    + now intros ->.
  - intros c H. unfold readp, exit_code; simpl. rewrite H.
    apply WEXITSTATUS_range.
Qed.

(** C8 as stated fails: a missing executable and a command that runs
    and exits with status 1 give the same return value, an ordinary exit
    status. *)
Lemma exec_failure_is_exit_status_1 :
  fst (readp NoExec false [] 256) =
  fst (readp (exited 1 (str "output")) false [] 256) /\
  (0 <= fst (readp NoExec false [] 256) <= 255)%Z.
Proof. vm_compute. repeat split; discriminate. Qed.

(** ** The prompt buffer *)

(** [appendraw] never stores past the end of [prompt]. *)
Lemma appendraw1_bounds (src : bytes) (b : buffer) :
  (0 <= remaining b)%Z ->
  (0 <= remaining (appendraw1 src b))%Z /\
  (Z.of_nat (length (written (appendraw1 src b)))
   + remaining (appendraw1 src b)
   = Z.of_nat (length (written b)) + remaining b)%Z.
Proof.
  revert b. induction src as [|c src IH]; intros b Hb; simpl.
  - split; [assumption|reflexivity].
  - destruct (Z.eqb_spec (remaining b) 0) as [Hz|Hnz].
    + split; [assumption|reflexivity].
    + destruct (IH (put c b)) as [H1 H2]; [simpl; lia|].
      split; [assumption|].
      rewrite H2. simpl. rewrite length_app. simpl. lia.
Qed.

Lemma appendraw_bounds (args : list (option bytes)) (b : buffer) :
  (0 <= remaining b)%Z ->
  (0 <= remaining (appendraw args b))%Z /\
  (Z.of_nat (length (written (appendraw args b)))
   + remaining (appendraw args b)
   = Z.of_nat (length (written b)) + remaining b)%Z.
Proof.
  revert b. induction args as [|[src|] args IH]; intros b Hb; simpl;
    try (split; [assumption|reflexivity]).
  destruct (appendraw1_bounds src b Hb) as [H1 H2].
  destruct (IH _ H1) as [H3 H4].
  split; [exact H3|]. etransitivity; [exact H4 | exact H2].
Qed.

(** [append] keeps [current] and [remaining] in step, but not in bounds. *)
Lemma append1_cursor (src : bytes) (b : buffer) :
  (Z.of_nat (length (written (append1 src b))) + remaining (append1 src b)
   = Z.of_nat (length (written b)) + remaining b)%Z.
Proof.
  revert b. induction src as [|c src IH]; intros b; simpl; [reflexivity|].
  destruct (remaining b =? 0)%Z; [reflexivity|].
  rewrite IH. destruct (needs_escape c); simpl; rewrite ?length_app; simpl; lia.
Qed.

(** C9 fails: with one byte of room left, a character that needs the
    escape is stored behind the end of [prompt] and [remaining] becomes
    negative; the loop test [remaining && *src] then never stops the
    stores that follow.  The title of the prompt of a user in a deep
    directory is enough for that. *)
Theorem append_overruns_prompt :
  let full := appendraw [Some (repeat "a"%char 4095)] initial_buffer in
  let b := append [Some (str "$")] full in
  let b' := append [Some (str "git")] b in
  let title := title_section deep_prompt_data initial_buffer in
  remaining full = 1%Z /\
  remaining b = (-1)%Z /\
  (Z.of_nat (length (written b)) = PROMPT_SIZE + 1)%Z /\
  remaining b' = (-4)%Z /\
  (Z.of_nat (length (written b')) = PROMPT_SIZE + 4)%Z /\
  remaining title = (-5)%Z /\
  (Z.of_nat (length (written title)) = PROMPT_SIZE + 5)%Z.
Proof. vm_compute. repeat split. Qed.

(** ** Fields of a line *)

Lemma streq_eq (a b : bytes) : streq a b = true <-> a = b.
Proof.
  revert b. induction a as [|x a IH]; intros [|y b]; simpl;
    try (split; [discriminate|discriminate]); [tauto|].
  rewrite andb_true_iff, Ascii.eqb_eq, IH.
  split; [intros [-> ->]; reflexivity | intros H; inversion H; auto].
Qed.

Lemma scan_field (xs rest : bytes) (c sep : ascii) :
  forallb (field_char sep) xs = true ->
  field_char sep c = false ->
  scan (xs ++ c :: rest) sep = Some (length xs).
Proof.
  intros Hxs Hc. induction xs as [|x xs IH]; simpl in *.
  - unfold field_char in Hc. apply negb_false_iff in Hc. now rewrite Hc.
  - apply andb_true_iff in Hxs as [Hx Hxs].
    unfold field_char in Hx. apply negb_true_iff in Hx. rewrite Hx.
    now rewrite IH.
Qed.

Lemma poke_field (pre xs rest : bytes) (c : ascii) :
  poke (pre ++ xs ++ c :: rest) (length pre + length xs) NUL =
  pre ++ xs ++ NUL :: rest.
Proof.
  unfold poke, store.
  rewrite (app_assoc pre xs (c :: rest)), <- length_app.
  rewrite firstn_length_app. simpl length.
  rewrite skipn_length_app. simpl skipn.
  now rewrite <- app_assoc.
Qed.

(** One [split] over a field that ends in the array. *)
Lemma split_field (pre xs rest : bytes) (c sep : ascii) :
  forallb (field_char sep) xs = true ->
  field_char sep c = false ->
  split (pre ++ xs ++ c :: rest) (length pre) sep =
  Some (length pre, pre ++ xs ++ NUL :: rest, length pre + length xs + 1).
Proof.
  intros Hxs Hc. unfold split.
  replace (length pre) with (length pre + 0) at 1 by lia.
  rewrite skipn_length_app. simpl skipn.
  rewrite scan_field by assumption.
  now rewrite poke_field.
Qed.

Lemma field_char_clean (sep : ascii) (xs : bytes) :
  forallb (field_char sep) xs = true ->
  forallb (fun c => negb (Ascii.eqb c NUL)) xs = true.
Proof.
  induction xs as [|x xs IH]; simpl; [reflexivity|].
  rewrite !andb_true_iff. intros [Hx Hxs]. split; [|auto].
  unfold field_char in Hx. now destruct (Ascii.eqb x NUL).
Qed.

Lemma cstr_at_field (pre xs rest : bytes) (sep : ascii) :
  forallb (field_char sep) xs = true ->
  cstr_at (pre ++ xs ++ NUL :: rest) (length pre) = xs.
Proof.
  intros Hxs. unfold cstr_at.
  replace (length pre) with (length pre + 0) by lia.
  rewrite skipn_length_app. simpl skipn.
  rewrite cstr_app_NUL. apply cstr_clean.
  now apply field_char_clean with sep.
Qed.

(** ** [split] on the location probe *)

Lemma scan_bound (cells : bytes) (sep : ascii) (k : nat) :
  scan cells sep = Some k -> k < length cells.
Proof.
  revert k. induction cells as [|c cells IH]; simpl; intros k H;
    [discriminate|].
  destruct (Ascii.eqb c NUL || Ascii.eqb c sep).
  - inversion H. lia.
  - destruct (scan cells sep) as [k'|]; [|discriminate].
    inversion H. specialize (IH k' eq_refl). lia.
Qed.

(** A [split] that stays inside the array returns the cursor it was
    given, keeps the size of the array, and leaves the cursor at most one
    cell behind the array. *)
Lemma split_cursor (buf m : bytes) (next seg next' : nat) (sep : ascii) :
  split buf next sep = Some (seg, m, next') ->
  seg = next /\ next < next' <= length buf /\ length m = length buf.
Proof.
  unfold split. destruct (scan (skipn next buf) sep) as [k|] eqn:E;
    [|discriminate].
  intros H. inversion H; subst. clear H.
  apply scan_bound in E. rewrite length_skipn in E.
  split; [reflexivity|]. split; [lia|].
  unfold poke, store. rewrite !length_app, length_firstn, length_skipn.
  simpl. lia.
Qed.

Lemma split_next (pre xs rest : bytes) (c sep : ascii) :
  forallb (field_char sep) xs = true ->
  field_char sep c = false ->
  split (pre ++ xs ++ c :: rest) (length pre) sep =
  Some (length pre, (pre ++ xs ++ [NUL]) ++ rest,
        length (pre ++ xs ++ [NUL])).
Proof.
  intros Hxs Hc. rewrite split_field by assumption.
  replace ((pre ++ xs ++ [NUL]) ++ rest) with (pre ++ xs ++ NUL :: rest)
    by now rewrite <- !app_assoc.
  replace (length (pre ++ xs ++ [NUL])) with (length pre + length xs + 1)
    by (rewrite !length_app; simpl; lia).
  reflexivity.
Qed.

Lemma cstr_at_next (pre xs rest : bytes) (sep : ascii) :
  forallb (field_char sep) xs = true ->
  cstr_at ((pre ++ xs ++ [NUL]) ++ rest) (length pre) = xs.
Proof.
  intros Hxs. rewrite <- !app_assoc. simpl app.
  now apply cstr_at_field with sep.
Qed.

(** When the probe prints its five lines the five [split] calls stay in
    [rpbuf] and give the five fields; with four lines and a failed probe
    four calls do. *)
Lemma locate_lines (g i b t s rest : bytes) :
  forallb (field_char LF) g = true ->
  forallb (field_char LF) i = true ->
  forallb (field_char LF) b = true ->
  forallb (field_char LF) t = true ->
  forallb (field_char LF) s = true ->
  locate 0 (g ++ LF :: i ++ LF :: b ++ LF :: t ++ LF :: s ++ LF :: rest)
  = Some (mkLocation g i b t (Some s), []) /\
  forall status : Z,
    status <> 0%Z ->
    locate status (g ++ LF :: i ++ LF :: b ++ LF :: t ++ LF :: rest)
    = Some (mkLocation g i b t None, []).
Proof.
  intros Hg Hi Hb Ht Hs.
  assert (forall tail m4 : bytes,
            m4 = ((((g ++ [NUL]) ++ i ++ [NUL]) ++ b ++ [NUL]) ++ t ++ [NUL])
                 ++ tail ->
            cstr_at m4 0 = g /\
            cstr_at m4 (length (g ++ [NUL])) = i /\
            cstr_at m4 (length ((g ++ [NUL]) ++ i ++ [NUL])) = b /\
            cstr_at m4
              (length (((g ++ [NUL]) ++ i ++ [NUL]) ++ b ++ [NUL])) = t)
    as Hfields.
  { intros tail m4 ->.
    split; [|split; [|split]].
    - rewrite <- !app_assoc. simpl app.
      now apply (cstr_at_field [] g _ LF).
    - rewrite <- (app_assoc _ (t ++ [NUL]) tail).
      rewrite <- (app_assoc _ (b ++ [NUL])).
      now apply cstr_at_next with LF.
    - rewrite <- (app_assoc _ (t ++ [NUL]) tail).
      now apply cstr_at_next with LF.
    - now apply cstr_at_next with LF. }
  pose proof (split_next [] g (i ++ LF :: b ++ LF :: t ++ LF :: s ++ LF :: rest)
                LF LF Hg eq_refl) as S1.
  pose proof (split_next (g ++ [NUL]) i
                (b ++ LF :: t ++ LF :: s ++ LF :: rest) LF LF Hi eq_refl) as S2.
  pose proof (split_next ((g ++ [NUL]) ++ i ++ [NUL]) b
                (t ++ LF :: s ++ LF :: rest) LF LF Hb eq_refl) as S3.
  pose proof (split_next (((g ++ [NUL]) ++ i ++ [NUL]) ++ b ++ [NUL]) t
                (s ++ LF :: rest) LF LF Ht eq_refl) as S4.
  pose proof (split_next
                ((((g ++ [NUL]) ++ i ++ [NUL]) ++ b ++ [NUL]) ++ t ++ [NUL]) s
                rest LF LF Hs eq_refl) as S5.
  pose proof (split_next [] g (i ++ LF :: b ++ LF :: t ++ LF :: rest)
                LF LF Hg eq_refl) as T1.
  pose proof (split_next (g ++ [NUL]) i (b ++ LF :: t ++ LF :: rest)
                LF LF Hi eq_refl) as T2.
  pose proof (split_next ((g ++ [NUL]) ++ i ++ [NUL]) b (t ++ LF :: rest)
                LF LF Hb eq_refl) as T3.
  pose proof (split_next (((g ++ [NUL]) ++ i ++ [NUL]) ++ b ++ [NUL]) t rest
                LF LF Ht eq_refl) as T4.
  simpl app in S1, T1. simpl length in S1, T1.
  split.
  - unfold locate, bind, checked, ret.
    rewrite S1, S2, S3, S4. simpl Z.eqb. cbv iota. rewrite S5.
    destruct (Hfields ((s ++ [NUL]) ++ rest) _ (eq_sym (app_assoc _ _ _)))
      as (Fg & Fi & Fb & Ft).
    simpl length in Fg. rewrite Fg, Fi, Fb, Ft.
    simpl option_map. now rewrite (cstr_at_next _ s rest LF Hs).
  - intros status Hstatus. apply Z.eqb_neq in Hstatus.
    unfold locate, bind, checked, ret.
    rewrite T1, T2, T3, T4, Hstatus.
    destruct (Hfields rest _ eq_refl) as (Fg & Fi & Fb & Ft).
    simpl length in Fg. rewrite Fg, Fi, Fb, Ft. reflexivity.
Qed.

Lemma length_array (junk : nat -> ascii) (size : nat) :
  length (array junk size) = size.
Proof. unfold array. now rewrite length_map, length_seq. Qed.

(** A capture that fills [rpbuf] puts the terminator in its last cell. *)
Lemma rpbuf_full (c : child) (junk : nat -> ascii) :
  length (captured c 256) = 255 ->
  snd (readp c false (array junk 256) 256) = captured c 256 ++ [NUL].
Proof.
  intros Hlen. unfold readp. simpl snd. simpl andb. cbv iota.
  rewrite poke_end, Hlen.
  rewrite skipn_all2; [reflexivity|]. rewrite length_array. lia.
Qed.

(** When the first line fills the array the second [split] starts behind
    it. *)
Lemma locate_overrun (status : Z) (data : bytes) :
  forallb (field_char LF) data = true ->
  split (data ++ [NUL]) 0 LF = Some (0, data ++ [NUL], length data + 1) /\
  split (data ++ [NUL]) (length (data ++ [NUL])) LF = None /\
  locate status (data ++ [NUL]) = None.
Proof.
  intros Hdata.
  pose proof (split_field [] data [] NUL LF Hdata eq_refl) as S1.
  simpl app in S1. simpl length in S1. rewrite Nat.add_0_l in S1.
  assert (split (data ++ [NUL]) (length (data ++ [NUL])) LF = None) as S2.
  { unfold split. rewrite skipn_all. reflexivity. }
  split; [exact S1|]. split; [exact S2|].
  unfold locate, bind, checked. rewrite S1.
  rewrite length_app in S2. simpl length in S2. now rewrite S2.
Qed.

Lemma probe_overrun (w : world) :
  length (captured (run w rev_parse) 256) = 255 ->
  forallb (field_char LF) (captured (run w rev_parse) 256) = true ->
  repository_state w = None.
Proof.
  intros Hlen Hdata. unfold repository_state. rewrite bind_do_readp.
  rewrite rpbuf_full by assumption.
  destruct (locate_overrun (exit_code (run w rev_parse)) _ Hdata)
    as (_ & _ & Hl).
  unfold resolve. rewrite Hl.
  destruct (captured (run w rev_parse) 256) as [|c data]; [discriminate|].
  simpl in Hdata. apply andb_true_iff in Hdata as [Hc _].
  unfold field_char in Hc. apply negb_true_iff, orb_false_iff in Hc.
  destruct Hc as [Hc _]. simpl nth. rewrite Hc. reflexivity.
Qed.

(** C10 fails: when the first line of the probe fills [rpbuf], as the
    path of the git directory of a repository in a deep directory does,
    the first [split] stops on the terminator in the last cell and leaves
    the cursor behind the array; the second [split] reads and writes
    there, so the resolver has no defined result. *)
Theorem split_leaves_rpbuf :
  let rpbuf := snd (location_probe deep_repository_world) in
  length rpbuf = 256 /\
  split rpbuf 0 LF = Some (0, rpbuf, 256) /\
  split rpbuf 256 LF = None /\
  repository_state deep_repository_world = None.
Proof. repeat split; vm_compute; reflexivity. Qed.

(** ** The absent state *)

Lemma cstr_nil_head (m : bytes) :
  cstr m = [] -> Ascii.eqb (nth 0 m NUL) NUL = true.
Proof.
  destruct m as [|c m]; simpl; [reflexivity|].
  now destruct (Ascii.eqb c NUL).
Qed.

(** C2: when the location probe captures nothing, the resolver makes no
    system call but the probe itself, there is no repository state, and
    [git_section] leaves the prompt as it is. *)
Theorem absent_when_probe_is_empty (w : world) (buf : buffer) :
  cstr (snd (location_probe w)) = [] ->
  repository_state w = Some (None, [Exec rev_parse]) /\
  git_section w buf = Some (buf, [Exec rev_parse]).
Proof.
  intros H. apply cstr_nil_head in H. unfold location_probe in H.
  assert (repository_state w = Some (None, [Exec rev_parse])) as E.
  { unfold repository_state, do_readp. rewrite bind_call.
    destruct (readp _ _ _ _) as [status rpbuf]. simpl in H.
    rewrite H. reflexivity. }
  split; [exact E|].
  unfold git_section. rewrite E. reflexivity.
Qed.

Lemma absent_when_probe_is_empty_witness :
  cstr (snd (location_probe no_git_world)) = [] /\
  repository_state no_git_world = Some (None, [Exec rev_parse]) /\
  git_section no_git_world initial_buffer
  = Some (initial_buffer, [Exec rev_parse]).
Proof.
  assert (cstr (snd (location_probe no_git_world)) = []) as H by reflexivity.
  split; [exact H|].
  exact (absent_when_probe_is_empty no_git_world initial_buffer H).
Defined.

(** The probe captures nothing when no child could be created, when
    [git] cannot be executed, and when [git] prints nothing. *)
Lemma empty_probe (c : child) (single : bool) (buf : bytes) (size : Z) :
  captured c size = [] -> cstr (snd (readp c single buf size)) = [].
Proof.
  intros H. unfold readp. rewrite H. simpl.
  now destruct single.
Qed.

Lemma captured_nothing (wstatus size : Z) :
  captured NoChild size = [] /\ captured NoExec size = [] /\
  captured (Ran [] wstatus) size = [].
Proof. repeat split. Qed.

(** ** The progress of a rebase *)

(** In the [rebase-merge] arm [r] is still [NULL] when [strcatv] is given
    it as its first fragment: the tag becomes the empty string. *)
Lemma rebase_merge_tag (w : world) (git : bytes) (ssha : option bytes) :
  has_dir w git "/rebase-merge" = true ->
  exists d t,
    operation_and_head w git ssha = Some ((d, false), t) /\
    d_op d = RebaseMerge /\
    with_progress (d_r d) (d_step d) (d_total d) = Some (Some []).
Proof.
  intros H. unfold operation_and_head, isdir.
  rewrite bind_call. unfold has_dir in H. rewrite H.
  unfold rebase_merge, do_readf. rewrite !bind_call. simpl.
  eexists. eexists. split; [reflexivity|]. split; reflexivity.
Qed.

(** C4 fails: in the middle of a rebase of [feature/x], at step 2 of 5,
    [msgnum] and [end] are read but the prompt shows neither a tag nor
    [2/5]. *)
Theorem rebase_merge_progress_is_dropped :
  exists v t buf,
    repository_state rebase_merge_world = Some (Some v, t) /\
    v_op v = RebaseMerge /\
    In (Open (str ".git/rebase-merge/msgnum")) t /\
    In (Open (str ".git/rebase-merge/end")) t /\
    v_r v = Some [] /\
    git_section rebase_merge_world initial_buffer = Some (buf, t) /\
    written buf =
      str "\[" ++ [ESC] ++ str "[38;5;15m" ++ [ESC] ++ str "[48;5;125m\]"
      ++ str "feature/x *" ++ updown_arrow.
Proof.
  do 3 eexists.
  split; [vm_compute; reflexivity|].
  split; [reflexivity|].
  split; [simpl; tauto|].
  split; [simpl; tauto|].
  split; [reflexivity|].
  split; vm_compute; reflexivity.
Qed.

(** ** The operation in progress *)

Lemma other_operation_op (w : world) (git : bytes) :
  exists d t,
    other_operation w git = Some (d, t) /\
    d_op d = first_match (tl (priority_rules w git)) /\
    d_r d = operation_tag (d_op d).
Proof.
  unfold other_operation, rebase_apply, isdir, isreg, do_readf.
  unfold priority_rules, apply_variant, has_dir, has_file. simpl tl.
  unfold bind, call, ret, tagged.
  probe_cases; simpl; do 2 eexists; repeat split.
Qed.

Lemma head_label_total (w : world) (git : bytes) (ssha : option bytes) :
  exists b detached t, head_label w git ssha = Some ((b, detached), t).
Proof.
  unfold head_label, islnk, do_readf, do_readp, bind, call, ret.
  destruct (is_type Symlink _).
  - destruct (readp _ _ _ _) as [status tmp1]. eauto.
  - destruct (strneq _ _ _); [eauto|].
    destruct (readp _ _ _ _) as [status tmp1]. eauto.
Qed.

(** The arm of the chain that is taken, the tag it gives and, for the
    first arm, what is left unprobed. *)
Lemma operation_arm (w : world) (git : bytes) (ssha : option bytes) :
  exists d detached t,
    operation_and_head w git ssha = Some ((d, detached), t) /\
    d_op d = first_match (priority_rules w git) /\
    d_r d = operation_tag (d_op d) /\
    (has_dir w git "/rebase-merge" = true ->
     d_step d <> None /\ d_total d <> None /\
     ~ In (Lstat (in_git git "/MERGE_HEAD")) t).
Proof.
  unfold operation_and_head, isdir. rewrite bind_call.
  unfold priority_rules at 1. simpl first_match. unfold has_dir at 1 3.
  destruct (is_type Directory (lstat w (in_git git "/rebase-merge"))) eqn:E.
  - unfold rebase_merge, do_readf, bind, call, ret.
    do 3 eexists. split; [reflexivity|].
    split; [reflexivity|]. split; [reflexivity|]. intros _.
    split; [discriminate|]. split; [discriminate|].
    simpl. intros [H|[H|[H|[H|[]]]]]; try discriminate.
    inversion H as [H']. unfold in_git in H'. simpl in H'.
    apply app_inv_head in H'. discriminate.
  - destruct (other_operation_op w git) as (d & t & Hd & Hop & Htag).
    rewrite Hd. simpl tl in Hop.
    destruct (d_b d) as [b|] eqn:Hb.
    + unfold bind, ret. rewrite Hb. do 3 eexists.
      split; [reflexivity|]. split; [exact Hop|]. split; [exact Htag|].
      discriminate.
    + destruct (head_label_total w git ssha) as (b & det & t' & Hh).
      unfold bind, ret. rewrite Hb, Hh. do 3 eexists.
      split; [reflexivity|]. split; [exact Hop|]. split; [exact Htag|].
      discriminate.
Qed.

(** ** The shape of a resolution *)

Lemma locate_trace (status : Z) (rpbuf : bytes) (l : location)
    (t : list event) :
  locate status rpbuf = Some (l, t) ->
  t = [] /\ (ssha l = None <-> status <> 0%Z).
Proof.
  unfold locate, bind, checked, ret.
  repeat match goal with
  | |- context [split ?m ?n ?c] =>
      destruct (split m n c) as [[[? ?] ?]|]; [|discriminate]
  end.
  destruct (Z.eqb_spec status 0) as [E|E].
  - repeat match goal with
    | |- context [split ?m ?n ?c] =>
        destruct (split m n c) as [[[? ?] ?]|]; [|discriminate]
    end.
    intros H; inversion H; subst; simpl.
    split; [reflexivity|]. split; [discriminate|]. intros F; now elim F.
  - intros H; inversion H; subst; simpl.
    split; [reflexivity|]. now split.
Qed.

(** What [resolve] is made of: the location, steps 2 and 3, and the work
    tree probes exactly when the directory is a work tree and not the git
    directory. *)
Lemma resolve_inv (w : world) (status : Z) (rpbuf : bytes) (v : summary)
    (t : list event) :
  resolve w status rpbuf = Some (v, t) ->
  exists l d detached t2 r q t3,
    locate status rpbuf = Some (l, []) /\
    operation_and_head w (git l) (ssha l) = Some ((d, detached), t2) /\
    with_progress (d_r d) (d_step d) (d_total d) = Some r /\
    (if streq (inside l) (str "true") then q = no_probes /\ t3 = []
     else if streq (intree l) (str "true")
          then worktree_probes w (ssha l) = Some (q, t3)
          else q = no_probes /\ t3 = []) /\
    t = t2 ++ t3 /\
    v = mkSummary (d_op d)
          (if streq (inside l) (str "true") && streq (bare l) (str "true")
           then Some (str "BARE:") else None)
          (if streq (inside l) (str "true")
              && negb (streq (bare l) (str "true"))
           then Some (str "GIT_DIR!") else strip_heads (d_b d))
          (p_w q) (p_i q) (p_s q) r (p_p q) detached.
Proof.
  unfold resolve. intros H.
  apply bind_Some in H as (l & t1 & t' & Hl & H & ->).
  destruct (locate_trace _ _ _ _ Hl) as [-> _].
  apply bind_Some in H as ([d detached] & t2 & t3 & Hd & H & ->).
  apply bind_Some in H as (r & tr & t4 & Hr & H & ->).
  unfold checked in Hr.
  destruct (with_progress (d_r d) (d_step d) (d_total d)) as [r'|] eqn:Er;
    [|discriminate].
  inversion Hr; subst r' tr. clear Hr. simpl app.
  exists l, d, detached, t2, r.
  destruct (streq (inside l) (str "true")).
  - exists no_probes, [].
    destruct (streq (bare l) (str "true")); inversion H; subst;
      repeat split; trivial.
  - destruct (streq (intree l) (str "true")).
    + apply bind_Some in H as (q & t5 & t6 & Hq & H & ->).
      inversion H; subst. exists q, t5. rewrite app_nil_r.
      repeat split; trivial.
    + exists no_probes, []. inversion H; subst. repeat split; trivial.
Qed.

Lemma repository_state_inv (w : world) (v : summary) (t : list event) :
  repository_state w = Some (Some v, t) ->
  exists t',
    t = Exec rev_parse :: t' /\
    resolve w (fst (location_probe w)) (snd (location_probe w))
    = Some (v, t').
Proof.
  unfold repository_state, do_readp. rewrite bind_call.
  change (readp (run w rev_parse) false (array (rpbuf_junk w) 256) 256)
    with (location_probe w).
  destruct (location_probe w) as [status rpbuf]. simpl fst. simpl snd.
  destruct (negb _).
  - destruct (resolve _ _ _) as [[v' t']|]; [|discriminate].
    unfold bind, ret. intros H; inversion H; subst.
    exists t'. rewrite app_nil_r. now split.
  - unfold ret. discriminate.
Qed.

(** ** The priority of the operations *)



(** ** The work tree probes *)

Lemma upstream_mark_trace (tmp : bytes) (p : option bytes) (t : list event) :
  upstream_mark tmp = Some (p, t) -> t = [].
Proof.
  unfold upstream_mark, bind, checked, ret.
  destruct (streq _ _); [intros H; now inversion H|].
  destruct (split tmp 0 TAB) as [[[rmt m] next]|]; [|discriminate].
  destruct (split m next TAB) as [[[loc m'] next']|]; [|discriminate].
  intros H; now inversion H.
Qed.

Lemma worktree_probes_inv (w : world) (ssha : option bytes) (q : probes)
    (t : list event) :
  worktree_probes w ssha = Some (q, t) ->
  t = [Exec diff; Exec diff_cached; Exec check_stash; Exec upstream] /\
  p_w q = (if negb (exit_code (run w diff) =? 0)%Z
           then Some (str "*") else None) /\
  p_i q = (if negb (exit_code (run w diff_cached) =? 0)%Z
           then Some (str "+")
           else match ssha with None => Some (str "#") | Some _ => None end) /\
  p_s q = (if (exit_code (run w check_stash) =? 0)%Z
           then Some (str "$") else None) /\
  (if (exit_code (run w upstream) =? 0)%Z
   then upstream_mark (tmp_at_upstream w) = Some (p_p q, [])
   else p_p q = None).
Proof.
  unfold worktree_probes, tmp_at_upstream.
  repeat (rewrite bind_do_readp; cbv beta iota).
  destruct (exit_code (run w upstream) =? 0)%Z.
  - destruct (upstream_mark _) as [[p t']|] eqn:E; [|discriminate].
    apply upstream_mark_trace in E as E'. subst t'.
    unfold bind, ret. intros H; inversion H; subst. simpl.
    repeat split.
  - unfold bind, ret. intros H; inversion H; subst. simpl. repeat split.
Qed.


(** ** The index *)

Lemma worktree_probes_eq (w : world) (ssha : option bytes) :
  worktree_probes w ssha =
  match (if (exit_code (run w upstream) =? 0)%Z
         then upstream_mark (tmp_at_upstream w) else ret None) with
  | Some (p, t) =>
      Some (mkProbes
              (if negb (exit_code (run w diff) =? 0)%Z
               then Some (str "*") else None)
              (if negb (exit_code (run w diff_cached) =? 0)%Z
               then Some (str "+")
               else match ssha with
                    | None => Some (str "#")
                    | Some _ => None
                    end)
              (if (exit_code (run w check_stash) =? 0)%Z
               then Some (str "$") else None)
              p,
            [Exec diff; Exec diff_cached; Exec check_stash; Exec upstream]
            ++ t)
  | None => None
  end.
Proof.
  unfold worktree_probes, tmp_at_upstream.
  repeat (rewrite bind_do_readp; cbv beta iota).
  unfold bind, ret.
  destruct (if (exit_code (run w upstream) =? 0)%Z then _ else _)
    as [[p t]|]; [|reflexivity].
  now rewrite app_nil_r.
Qed.

Lemma cstr_head (m : bytes) :
  cstr m <> [] -> Ascii.eqb (nth 0 m NUL) NUL = false.
Proof.
  destruct m as [|c m]; simpl; [congruence|].
  destruct (Ascii.eqb c NUL); [congruence|reflexivity].
Qed.

(** The work tree probes give their result unless the count of the
    upstream is read outside [tmp]. *)
Lemma worktree_probes_defined (w : world) (ssha : option bytes) :
  ((exit_code (run w upstream) =? 0)%Z = true ->
   upstream_mark (tmp_at_upstream w) <> None) ->
  exists q t,
    worktree_probes w ssha = Some (q, t) /\
    p_i q = (if negb (exit_code (run w diff_cached) =? 0)%Z
             then Some (str "+")
             else match ssha with
                  | None => Some (str "#")
                  | Some _ => None
                  end).
Proof.
  intros Hup. rewrite worktree_probes_eq.
  destruct (exit_code (run w upstream) =? 0)%Z.
  - destruct (upstream_mark (tmp_at_upstream w)) as [[p t]|] eqn:E;
      [|now elim (Hup eq_refl)].
    do 2 eexists. split; reflexivity.
  - unfold ret. do 2 eexists. split; reflexivity.
Qed.

(** C5: in a work tree that is not the git directory the resolver gives
    a state, provided the suffix of a rebase fits [tmp4] and the count
    of the upstream is read inside [tmp], and in that state the index is
    [Staged] when the cached diff does not return 0; otherwise it is
    [NoCommitsYet] when the location probe gave no short hash of [HEAD],
    which is when the probe itself did not return 0; otherwise [Clean]. *)
Theorem index_state_resolved (w : world) (l : location) :
  cstr (snd (location_probe w)) <> [] ->
  locate (fst (location_probe w)) (snd (location_probe w)) = Some (l, []) ->
  streq (inside l) (str "true") = false ->
  streq (intree l) (str "true") = true ->
  (forall d detached t,
     operation_and_head w (git l) (ssha l) = Some ((d, detached), t) ->
     with_progress (d_r d) (d_step d) (d_total d) <> None) ->
  ((exit_code (run w upstream) =? 0)%Z = true ->
   upstream_mark (tmp_at_upstream w) <> None) ->
  (ssha l = None <-> fst (location_probe w) <> 0%Z) /\
  exists v t,
    repository_state w = Some (Some v, t) /\
    v_i v = index_mark
              (if negb (exit_code (run w diff_cached) =? 0)%Z then Staged
               else match ssha l with
                    | None => NoCommitsYet
                    | Some _ => Clean
                    end).
Proof.
  intros Hprobe Hl Hin Htree Hfits Hup.
  split; [exact (proj2 (locate_trace _ _ _ _ Hl))|].
  apply cstr_head in Hprobe.
  destruct (operation_arm w (git l) (ssha l))
    as (d & det & t2 & Hd & _).
  destruct (with_progress (d_r d) (d_step d) (d_total d)) as [r|] eqn:Hr;
    [|now elim (Hfits _ _ _ Hd)].
  destruct (worktree_probes_defined w (ssha l) Hup) as (q & t3 & Hq & Hi).
  exists (mkSummary (d_op d) None (strip_heads (d_b d)) (p_w q) (p_i q)
            (p_s q) r (p_p q) det),
         (Exec rev_parse :: t2 ++ t3).
  split.
  - unfold repository_state. rewrite bind_do_readp.
    change (readp (run w rev_parse) false (array (rpbuf_junk w) 256) 256)
      with (location_probe w).
    change (exit_code (run w rev_parse)) with (fst (location_probe w)).
    rewrite Hprobe. simpl negb. cbv iota.
    unfold resolve, bind, checked, ret. rewrite Hl. cbv beta iota.
    rewrite Hd. cbv beta iota. rewrite Hr. cbv beta iota.
    rewrite Hin, Htree, Hq. cbv beta iota.
    now rewrite ?app_nil_r.
  - simpl. rewrite Hi.
    destruct (negb _); [reflexivity|]. now destruct (ssha l).
Qed.

Lemma index_state_resolved_witness :
  (exists v t,
     repository_state staged_world = Some (Some v, t) /\
     v_i v = index_mark Staged) /\
  (exists v t,
     repository_state unborn_world = Some (Some v, t) /\
     v_i v = index_mark NoCommitsYet) /\
  (exists v t,
     repository_state (upstream_world 2 3) = Some (Some v, t) /\
     v_i v = index_mark Clean).
Proof.
  assert (forall w l,
            cstr (snd (location_probe w)) <> [] ->
            locate (fst (location_probe w)) (snd (location_probe w))
            = Some (l, []) ->
            streq (inside l) (str "true") = false ->
            streq (intree l) (str "true") = true ->
            (forall d detached t,
               operation_and_head w (git l) (ssha l)
               = Some ((d, detached), t) ->
               with_progress (d_r d) (d_step d) (d_total d) <> None) ->
            ((exit_code (run w upstream) =? 0)%Z = true ->
             upstream_mark (tmp_at_upstream w) <> None) ->
            exists v t,
              repository_state w = Some (Some v, t) /\
              v_i v = index_mark
                        (if negb (exit_code (run w diff_cached) =? 0)%Z
                         then Staged
                         else match ssha l with
                              | None => NoCommitsYet
                              | Some _ => Clean
                              end)) as H
    by (intros w l H1 H2 H3 H4 H5 H6;
        exact (proj2 (index_state_resolved w l H1 H2 H3 H4 H5 H6))).
  split; [|split].
  - apply (H staged_world
             (mkLocation (str ".git") (str "false") (str "false")
                (str "true") (Some (str "abc1234"))));
      try reflexivity; try (vm_compute; discriminate).
    intros d det t E. vm_compute in E. inversion E. vm_compute. discriminate.
  - apply (H unborn_world
             (mkLocation (str ".git") (str "false") (str "false")
                (str "true") None));
      try reflexivity; try (vm_compute; discriminate).
    intros d det t E. vm_compute in E. inversion E. vm_compute. discriminate.
  - apply (H (upstream_world 2 3)
             (mkLocation (str ".git") (str "false") (str "false")
                (str "true") (Some (str "abc1234"))));
      try reflexivity; try (vm_compute; discriminate).
    intros d det t E. vm_compute in E. inversion E. vm_compute. discriminate.
Defined.

(** ** Inside the git directory *)




(** ** Decimal counts *)

Lemma digits_field (u : Decimal.uint) :
  forallb (field_char TAB) (str (NilEmpty.string_of_uint u)) = true.
Proof. induction u; simpl; trivial. Qed.

Lemma decimal_field (n : N) : forallb (field_char TAB) (decimal n) = true.
Proof.
  unfold decimal, NilZero.string_of_uint.
  destruct (N.to_uint n); try apply digits_field. reflexivity.
Qed.

Lemma str_inj (s s' : string) : str s = str s' -> s = s'.
Proof.
  intros H. unfold str in H.
  rewrite <- (string_of_list_ascii_of_string s),
          <- (string_of_list_ascii_of_string s').
  now rewrite H.
Qed.

Lemma decimal_zero (n : N) : streq (decimal n) (str "0") = (n =? 0)%N.
Proof.
  destruct (N.eqb_spec n 0) as [->|Hn]; [reflexivity|].
  destruct (streq (decimal n) (str "0")) eqn:E; [|reflexivity].
  exfalso. apply Hn. apply streq_eq in E. apply str_inj in E.
  rewrite <- (DecimalN.Unsigned.of_to n).
  unfold NilZero.string_of_uint in E.
  destruct (N.to_uint n) as [|u|u|u|u|u|u|u|u|u|u]; try discriminate;
    try reflexivity.
  simpl in E. destruct u; try discriminate. reflexivity.
Qed.

(** ** The upstream counts *)

Lemma counts_both_zero (behind ahead : N) :
  streq (decimal behind ++ [TAB] ++ decimal ahead)
        (str "0" ++ [TAB] ++ str "0")
  = ((behind =? 0)%N && (ahead =? 0)%N).
Proof.
  rewrite <- !decimal_zero.
  pose proof (decimal_field behind) as Hb.
  destruct (decimal behind) as [|b [|b' B]]; simpl.
  - now destruct (decimal ahead).
  - now rewrite andb_true_r.
  - simpl in Hb. apply andb_true_iff in Hb as [_ Hb].
    apply andb_true_iff in Hb as [Hb _].
    unfold field_char in Hb. apply negb_true_iff, orb_false_iff in Hb.
    destruct Hb as [_ Hb]. rewrite Hb. simpl. now rewrite !andb_false_r.
Qed.

(** Lines 326-335 on the array that holds the two counts. *)
Lemma upstream_mark_counts (behind ahead : N) (rest : bytes) :
  upstream_mark (decimal behind ++ [TAB] ++ decimal ahead ++ NUL :: rest)
  = Some (divergence_mark (classify behind ahead), []).
Proof.
  unfold upstream_mark.
  pose proof (decimal_field behind) as Hb.
  pose proof (decimal_field ahead) as Ha.
  assert (cstr (decimal behind ++ [TAB] ++ decimal ahead ++ NUL :: rest)
          = decimal behind ++ [TAB] ++ decimal ahead) as ->.
  { replace (decimal behind ++ [TAB] ++ decimal ahead ++ NUL :: rest)
      with ((decimal behind ++ [TAB] ++ decimal ahead) ++ NUL :: rest)
      by now rewrite <- !app_assoc.
    rewrite cstr_app_NUL. apply cstr_clean.
    rewrite !forallb_app.
    rewrite (field_char_clean TAB _ Hb), (field_char_clean TAB _ Ha).
    reflexivity. }
  rewrite counts_both_zero. unfold classify.
  destruct ((behind =? 0)%N && (ahead =? 0)%N) eqn:E; [reflexivity|].
  pose proof (split_field [] (decimal behind) (decimal ahead ++ NUL :: rest)
                TAB TAB Hb eq_refl) as S1.
  simpl app in S1. simpl length in S1. simpl app. rewrite S1.
  pose proof (split_field (decimal behind ++ [NUL]) (decimal ahead) rest
                NUL TAB Ha eq_refl) as S2.
  rewrite <- app_assoc in S2. simpl app in S2.
  rewrite length_app in S2. simpl length in S2.
  rewrite Nat.add_0_l.
  unfold bind, checked, ret. rewrite S2.
  pose proof (cstr_at_field [] (decimal behind) (decimal ahead ++ NUL :: rest)
                TAB Hb) as C1.
  simpl app in C1. simpl length in C1. rewrite C1.
  pose proof (cstr_at_field (decimal behind ++ [NUL]) (decimal ahead) rest
                TAB Ha) as C2.
  rewrite <- app_assoc in C2. simpl app in C2.
  rewrite length_app in C2. simpl length in C2. rewrite C2.
  rewrite !decimal_zero.
  destruct (behind =? 0)%N; [reflexivity|].
  now destruct (ahead =? 0)%N.
Qed.

(** A line of fewer than 255 bytes read in [single] mode: its last byte
    becomes the terminator. *)
Lemma readp_single_line (out : stream) (wstatus : Z) (m body : bytes)
    (c : ascii) :
  Forall (fun chunk => chunk <> []) out ->
  concat out = body ++ [c] ->
  length (concat out) <= 255 ->
  snd (readp (Ran out wstatus) true m 256)
  = body ++ NUL :: skipn (length body + 1) m.
Proof.
  intros Hout Hline Hlen. unfold readp, captured. simpl child_output.
  rewrite room_of_size by (vm_compute; split; discriminate).
  assert (0 <= 256 - 1 < 2 ^ 31)%Z as Hroom
    by (vm_compute; split; [discriminate|reflexivity]).
  rewrite (readp_loop_spec out Hout _ [] Hroom).
  rewrite app_nil_l, firstn_all2 by lia.
  rewrite Hline. simpl snd.
  assert ((length (body ++ [c]) =? 0) = false) as ->
    by (rewrite length_app; simpl; apply Nat.eqb_neq; lia).
  simpl andb. cbv iota.
  rewrite poke_last by (destruct body; discriminate).
  rewrite removelast_last, length_app. reflexivity.
Qed.

(** C3: when the count command does not return 0 there is no upstream
    mark; when it returns 0 and prints the two counts, in decimal with a
    tab between them, the mark is that of [InSync] when both are zero, of
    [Ahead] when the first is zero, of [Behind] when the second is zero
    and of [Diverged] otherwise. *)
Theorem upstream_divergence (w : world) (ssha : option bytes) :
  (exit_code (run w upstream) <> 0%Z ->
   exists q t,
     worktree_probes w ssha = Some (q, t) /\
     p_p q = divergence_mark NoUpstream) /\
  (forall (out : stream) (wstatus : Z) (behind ahead : N),
     run w upstream = Ran out wstatus ->
     exit_code (Ran out wstatus) = 0%Z ->
     Forall (fun chunk => chunk <> []) out ->
     concat out = decimal behind ++ [TAB] ++ decimal ahead ++ [LF] ->
     length (concat out) <= 255 ->
     exists q t,
       worktree_probes w ssha = Some (q, t) /\
       p_p q = divergence_mark (classify behind ahead)).
Proof.
  split.
  - intros Hfail. rewrite worktree_probes_eq.
    apply Z.eqb_neq in Hfail. rewrite Hfail. unfold ret.
    do 2 eexists. split; reflexivity.
  - intros out wstatus behind ahead Hrun Hexit Hout Hline Hlen.
    rewrite worktree_probes_eq. rewrite Hrun, Hexit. simpl Z.eqb.
    cbv iota. unfold tmp_at_upstream. rewrite Hrun.
    rewrite (readp_single_line out wstatus _
               (decimal behind ++ [TAB] ++ decimal ahead) LF Hout)
      by (trivial; now rewrite Hline, <- !app_assoc).
    rewrite <- !app_assoc. simpl app.
    change (decimal behind ++ TAB :: decimal ahead ++ NUL :: ?r)
      with (decimal behind ++ [TAB] ++ decimal ahead ++ NUL :: r).
    rewrite upstream_mark_counts.
    do 2 eexists. split; reflexivity.
Qed.

Lemma upstream_divergence_witness :
  let counts (behind ahead : N) (d : divergence) :=
    exists q t,
      worktree_probes (upstream_world behind ahead) (Some (str "abc1234"))
      = Some (q, t) /\
      p_p q = divergence_mark d in
  decimal 2 ++ [TAB] ++ decimal 3 = str "2" ++ [TAB] ++ str "3" /\
  counts 0%N 0%N InSync /\
  counts 0%N 3%N Ahead /\
  counts 2%N 0%N Behind /\
  counts 2%N 3%N Diverged /\
  exists q t,
    worktree_probes unborn_world None = Some (q, t) /\
    p_p q = divergence_mark NoUpstream.
Proof.
  assert (forall behind ahead : N,
            length (decimal behind ++ [TAB] ++ decimal ahead ++ [LF]) <= 200 ->
            exists q t,
              worktree_probes (upstream_world behind ahead)
                (Some (str "abc1234")) = Some (q, t) /\
              p_p q = divergence_mark (classify behind ahead)) as H.
  { intros behind ahead Hlen.
    refine (proj2 (upstream_divergence (upstream_world behind ahead) _)
              [decimal behind ++ [TAB] ++ decimal ahead ++ [LF]]
              (W_EXITCODE 0 0) behind ahead _ eq_refl _ _ _).
    - unfold upstream_world, make_world, worktree_cmds, exited. simpl.
      now destruct (decimal behind).
    - repeat constructor. now destruct (decimal behind).
    - apply app_nil_r.
    - assert (forall x : bytes, concat [x] = x) as -> by apply app_nil_r.
      lia. }
  split; [reflexivity|].
  split; [apply (H 0%N 0%N); simpl; lia|].
  split; [apply (H 0%N 3%N); simpl; lia|].
  split; [apply (H 2%N 0%N); simpl; lia|].
  split; [apply (H 2%N 3%N); simpl; lia|].
  apply (proj1 (upstream_divergence unborn_world None)).
  discriminate.
Defined.

(** ** More on the progress of a rebase *)

(** [step] and [total] are set in the two rebase directories and nowhere
    else, whether or not the files they are read from exist: [readf]
    returns its buffer, never [NULL]. *)
Lemma progress_captured (w : world) (git : bytes) (ssha : option bytes)
    (d : detection) (detached : bool) (t : list event) :
  operation_and_head w git ssha = Some ((d, detached), t) ->
  if has_dir w git "/rebase-merge" then
    d_step d
    = Some (cstr (readf (open_rd w (in_git git "/rebase-merge/msgnum")) []
                    256)) /\
    d_total d
    = Some (cstr (readf (open_rd w (in_git git "/rebase-merge/end")) [] 256))
  else if has_dir w git "/rebase-apply" then
    d_step d
    = Some (cstr (readf (open_rd w (in_git git "/rebase-apply/next")) []
                    256)) /\
    d_total d
    = Some (cstr (readf (open_rd w (in_git git "/rebase-apply/last")) []
                    256))
  else d_step d = None /\ d_total d = None.
Proof.
  unfold operation_and_head, rebase_merge, other_operation, rebase_apply,
    head_label, isdir, isreg, islnk, do_readf, do_readp, tagged.
  unfold has_dir, bind, call, ret.
  probe_cases; simpl;
    repeat match goal with
    | |- context [strneq ?a ?b ?n] => destruct (strneq a b n); simpl
    end;
    intros H; inversion H; subst; simpl; split; reflexivity.
Qed.

(** In the [rebase-apply] directory the suffix follows the tag. *)
Lemma rebase_apply_progress (w : world) (git : bytes) (ssha : option bytes)
    (d : detection) (detached : bool) (t : list event) :
  operation_and_head w git ssha = Some ((d, detached), t) ->
  has_dir w git "/rebase-merge" = false ->
  has_dir w git "/rebase-apply" = true ->
  exists tag step total,
    operation_tag (d_op d) = Some tag /\
    d_r d = Some tag /\
    d_step d = Some step /\ d_total d = Some total.
Proof.
  unfold operation_and_head, rebase_merge, other_operation, rebase_apply,
    head_label, isdir, isreg, islnk, do_readf, do_readp, tagged.
  unfold has_dir, bind, call, ret.
  probe_cases; simpl;
    repeat match goal with
    | |- context [strneq ?a ?b ?n] => destruct (strneq a b n); simpl
    end;
    intros H Hm Ha; try discriminate; inversion H; subst; simpl;
    do 3 eexists; repeat split.
Qed.

(** With a tag, a step and a total, [strcatv] writes the suffix to
    [tmp4], which holds 255 bytes and the terminator. *)
Lemma with_progress_tagged (tag step total : bytes) :
  with_progress (Some tag) (Some step) (Some total)
  = (let text := tag ++ str " " ++ step ++ str "/" ++ total in
     if length text <? 256 then Some (Some text) else None).
Proof.
  unfold with_progress, strcatv_into.
  replace (strcatv [Some tag; Some (str " "); Some step; Some (str "/");
                    Some total])
    with (tag ++ str " " ++ step ++ str "/" ++ total)
    by (cbn [strcatv]; now rewrite app_nil_r).
  cbv zeta. now destruct (_ <? 256).
Qed.

Lemma operation_tag_length (o : operation) (tag : bytes) :
  operation_tag o = Some tag -> length tag <= 15.
Proof.
  destruct o; intros H; inversion H; subst; vm_compute; lia.
Qed.

(* ===================================================================== *)
(** * Further properties *)
(* ===================================================================== *)

(** ** What [appendraw] and [append] store *)

Lemma buffer_eq (b : buffer) (w : bytes) (r : Z) :
  written b = w -> remaining b = r ->
  b = {| written := w; remaining := r; lastbg := lastbg b |}.
Proof. destruct b; simpl; intros -> ->; reflexivity. Qed.

Lemma appendraw1_exact (src : bytes) (b : buffer) :
  (0 <= remaining b)%Z ->
  appendraw1 src b =
  {| written := written b ++ firstn (Z.to_nat (remaining b)) src;
     remaining := remaining b
                  - Z.min (remaining b) (Z.of_nat (length src));
     lastbg := lastbg b |}.
Proof.
  revert b. induction src as [|c src IH]; intros b Hb; simpl.
  - rewrite firstn_nil, app_nil_r.
    replace (remaining b - Z.min (remaining b) 0)%Z with (remaining b) by lia.
    now destruct b.
  - destruct (Z.eqb_spec (remaining b) 0) as [Hz|Hnz].
    + rewrite Hz. simpl. rewrite app_nil_r. simpl Z.min.
      destruct b; simpl in *; subst; reflexivity.
    + rewrite IH by (simpl; lia). simpl.
      replace (Z.to_nat (remaining b)) with (S (Z.to_nat (remaining b - 1)))
        by lia.
      simpl firstn. rewrite <- app_assoc. simpl app.
      f_equal. lia.
Qed.

Lemma appendraw_fragments (frags : list bytes) (b : buffer) :
  (0 <= remaining b)%Z ->
  written (appendraw (fragments frags) b)
  = written b ++ firstn (Z.to_nat (remaining b)) (concat frags) /\
  remaining (appendraw (fragments frags) b)
  = (remaining b - Z.min (remaining b) (Z.of_nat (length (concat frags))))%Z /\
  (0 <= remaining (appendraw (fragments frags) b))%Z /\
  lastbg (appendraw (fragments frags) b) = lastbg b.
Proof.
  revert b. induction frags as [|src frags IH]; intros b Hb.
  - unfold appendraw, fragments. simpl.
    rewrite firstn_nil, app_nil_r. repeat split; lia.
  - change (appendraw (fragments (src :: frags)) b)
      with (appendraw (fragments frags) (appendraw1 src b)).
    rewrite appendraw1_exact by assumption.
    set (b1 := {| written := _; remaining := _; lastbg := _ |}).
    assert (0 <= remaining b1)%Z as Hb1 by (unfold b1; simpl; lia).
    destruct (IH b1 Hb1) as (Hw & Hr & Hpos & Hl).
    rewrite Hw, Hr, Hl. unfold b1. simpl written. simpl remaining.
    simpl lastbg. simpl concat. rewrite length_app.
    split; [|split; [|split]]; try reflexivity; try lia.
    rewrite <- app_assoc. f_equal.
    rewrite firstn_app. f_equal. f_equal. lia.
Qed.

(** X1: [appendraw] stores its fragments one after the other until the
    room is used up and then stops: the prompt gets the first
    [remaining] bytes of their concatenation, [remaining] goes down by
    what was stored and never below 0, and [lastbg] is left alone. *)
Theorem appendraw_truncates (frags : list bytes) (b : buffer) :
  (0 <= remaining b)%Z ->
  written (appendraw (fragments frags) b)
  = written b ++ firstn (Z.to_nat (remaining b)) (concat frags) /\
  remaining (appendraw (fragments frags) b)
  = (remaining b - Z.min (remaining b) (Z.of_nat (length (concat frags))))%Z /\
  (0 <= remaining (appendraw (fragments frags) b))%Z /\
  lastbg (appendraw (fragments frags) b) = lastbg b.
Proof. exact (appendraw_fragments frags b). Qed.

Lemma appendraw_truncates_witness :
  let b := {| written := str "abc"; remaining := 4; lastbg := None |} in
  (0 <= remaining b)%Z /\
  written (appendraw (fragments [str "he"; str "llo"]) b) = str "abchell" /\
  remaining (appendraw (fragments [str "he"; str "llo"]) b) = 0%Z.
Proof.
  intros b.
  assert (0 <= remaining b)%Z as Hb by (simpl; lia).
  split; [exact Hb|].
  destruct (appendraw_truncates [str "he"; str "llo"] b Hb) as (Hw & Hr & _).
  split; [rewrite Hw | rewrite Hr]; reflexivity.
Defined.

Lemma append1_exact (src : bytes) (b : buffer) :
  (Z.of_nat (length (escape src)) <= remaining b)%Z ->
  append1 src b =
  {| written := written b ++ escape src;
     remaining := remaining b - Z.of_nat (length (escape src));
     lastbg := lastbg b |}.
Proof.
  revert b. induction src as [|c src IH]; intros b Hb; simpl.
  - rewrite app_nil_r.
    replace (remaining b - 0)%Z with (remaining b) by lia. now destruct b.
  - simpl in Hb. rewrite length_app in Hb.
    destruct (Z.eqb_spec (remaining b) 0) as [Hz|Hnz].
    + exfalso. destruct (needs_escape c); simpl in Hb; lia.
    + destruct (needs_escape c); simpl in Hb.
      * rewrite IH by (simpl; lia). simpl.
        rewrite <- !app_assoc. simpl app. f_equal. lia.
      * rewrite IH by (simpl; lia). simpl.
        rewrite <- !app_assoc. simpl app. f_equal. lia.
Qed.

Lemma append_fragments (frags : list bytes) (b : buffer) :
  (Z.of_nat (length (concat (map escape frags))) <= remaining b)%Z ->
  written (append (fragments frags) b)
  = written b ++ concat (map escape frags) /\
  remaining (append (fragments frags) b)
  = (remaining b - Z.of_nat (length (concat (map escape frags))))%Z /\
  lastbg (append (fragments frags) b) = lastbg b.
Proof.
  revert b. induction frags as [|src frags IH]; intros b Hb.
  - unfold append, fragments. simpl.
    rewrite app_nil_r. repeat split; lia.
  - change (append (fragments (src :: frags)) b)
      with (append (fragments frags) (append1 src b)).
    simpl map in *. simpl concat in *. rewrite length_app in *.
    rewrite append1_exact by lia.
    set (b1 := {| written := _; remaining := _; lastbg := _ |}).
    assert (Z.of_nat (length (concat (map escape frags))) <= remaining b1)%Z
      as Hb1 by (unfold b1; simpl; lia).
    destruct (IH b1 Hb1) as (Hw & Hr & Hl).
    rewrite Hw, Hr, Hl. unfold b1. simpl.
    split; [|split]; try reflexivity; try lia.
    now rewrite <- app_assoc.
Qed.

(** X2: when the room holds the escaped text, [append] stores every
    fragment in full with a backslash before each dollar sign and each
    backslash, and [remaining] goes down by the length stored. *)
Theorem append_escapes (frags : list bytes) (b : buffer) :
  (Z.of_nat (length (concat (map escape frags))) <= remaining b)%Z ->
  written (append (fragments frags) b)
  = written b ++ concat (map escape frags) /\
  remaining (append (fragments frags) b)
  = (remaining b - Z.of_nat (length (concat (map escape frags))))%Z /\
  lastbg (append (fragments frags) b) = lastbg b.
Proof. exact (append_fragments frags b). Qed.

Lemma append_escapes_witness :
  let b := {| written := str "abc"; remaining := 100; lastbg := None |} in
  (Z.of_nat (length (concat (map escape [str "$HOME"; str "a\b"])))
   <= remaining b)%Z /\
  written (append (fragments [str "$HOME"; str "a\b"]) b)
  = str "abc\$HOMEa\\b".
Proof.
  intros b.
  assert (Z.of_nat (length (concat (map escape [str "$HOME"; str "a\b"])))
          <= remaining b)%Z as Hb by (simpl; lia).
  split; [exact Hb|].
  destruct (append_escapes [str "$HOME"; str "a\b"] b Hb) as (Hw & _).
  rewrite Hw. reflexivity.
Defined.

(** ** A [NULL] among the fragments *)

Lemma varargs_null (each : bytes -> buffer -> buffer) (frags : list bytes)
    (rest : list (option bytes)) (b : buffer) :
  varargs each (fragments frags ++ None :: rest) b
  = varargs each (fragments frags) b.
Proof.
  revert b. induction frags as [|src frags IH]; intros b; simpl;
    [reflexivity|apply IH].
Qed.

Lemma strcatv_fragments (frags : list bytes) (rest : list (option bytes)) :
  strcatv (fragments frags ++ None :: rest) = concat frags.
Proof.
  induction frags as [|src frags IH]; simpl; [reflexivity|now rewrite IH].
Qed.

(** X3: the variadic helpers stop at the first [NULL] they are given, not
    at the one that closes the call: [append], [appendraw] and [strcatv]
    drop every fragment behind it.  So when [USER] is not set the title
    of the window loses the host and the directory as well. *)
Theorem null_fragment_ends_call (frags : list bytes)
    (rest : list (option bytes)) (b : buffer) (data : prompt_data) :
  append (fragments frags ++ None :: rest) b = append (fragments frags) b /\
  appendraw (fragments frags ++ None :: rest) b
  = appendraw (fragments frags) b /\
  strcatv (fragments frags ++ None :: rest) = concat frags /\
  (user data = None ->
   title_section data b
   = appendraw [Some ([BEL] ++ str "\]")]
       (appendraw [Some (str "\[" ++ [ESC] ++ str "]0;")] b)).
Proof.
  split; [apply varargs_null|]. split; [apply varargs_null|].
  split; [apply strcatv_fragments|].
  intros Huser. unfold title_section. now rewrite Huser.
Qed.

Lemma null_fragment_ends_call_witness :
  let data := mkPromptData None (str "h") (Some (str "/tmp"))
                (Some (str "/tmp")) 0 in
  user data = None /\
  written (title_section data initial_buffer)
  = str "\[" ++ [ESC] ++ str "]0;" ++ [BEL] ++ str "\]".
Proof.
  intros data.
  assert (user data = None) as Huser by reflexivity.
  split; [exact Huser|].
  destruct (null_fragment_ends_call [] [] initial_buffer data)
    as (_ & _ & _ & H).
  rewrite (H Huser). reflexivity.
Defined.

(** ** [section] *)

Lemma section_exact (fg bg : bytes) (b : buffer) :
  (0 <= remaining b)%Z ->
  written (section fg bg b)
  = written b
    ++ firstn (Z.to_nat (remaining b)) (section_text (lastbg b) fg bg) /\
  remaining (section fg bg b)
  = (remaining b
     - Z.min (remaining b)
         (Z.of_nat (length (section_text (lastbg b) fg bg))))%Z /\
  (0 <= remaining (section fg bg b))%Z /\
  lastbg (section fg bg b) = Some bg.
Proof.
  intros Hb. unfold section.
  destruct (lastbg b) as [last|]; simpl written; simpl remaining;
    simpl lastbg.
  - pose proof (appendraw_fragments
                  [str " "; str "\[" ++ [ESC] ++ str "[38;5;"; last;
                   str "m" ++ [ESC] ++ str "[48;5;"; bg; str "m\]";
                   separator_glyph ++ str " ";
                   str "\[" ++ [ESC] ++ str "[38;5;"; fg; str "m\]"] b Hb)
      as H.
    replace (concat _) with (section_text (Some last) fg bg) in H
      by (unfold section_text; simpl; now rewrite ?app_nil_r).
    destruct H as (Hw & Hr & Hpos & _).
    repeat split; assumption.
  - pose proof (appendraw_fragments
                  [str "\[" ++ [ESC] ++ str "[38;5;"; fg;
                   str "m" ++ [ESC] ++ str "[48;5;"; bg; str "m\]"] b Hb)
      as H.
    replace (concat _) with (section_text None fg bg) in H
      by (unfold section_text; simpl; now rewrite ?app_nil_r).
    destruct H as (Hw & Hr & Hpos & _).
    repeat split; assumption.
Qed.

(** X4: [section] stores its escape sequences, with the separator in the
    colours of the section before when there is one, cut off where the
    room ends; it never stores behind [prompt], and it records its
    background for the next section. *)
Theorem section_stores (fg bg : bytes) (b : buffer) :
  (0 <= remaining b)%Z ->
  written (section fg bg b)
  = written b
    ++ firstn (Z.to_nat (remaining b)) (section_text (lastbg b) fg bg) /\
  remaining (section fg bg b)
  = (remaining b
     - Z.min (remaining b)
         (Z.of_nat (length (section_text (lastbg b) fg bg))))%Z /\
  (0 <= remaining (section fg bg b))%Z /\
  lastbg (section fg bg b) = Some bg.
Proof. exact (section_exact fg bg b). Qed.

Lemma section_stores_witness :
  let b := section (str "253") (str "242") initial_buffer in
  (0 <= remaining b)%Z /\
  written (section (str "15") (str "32") b)
  = written b ++ str " \[" ++ [ESC] ++ str "[38;5;242m" ++ [ESC]
    ++ str "[48;5;32m\]" ++ separator_glyph ++ str " \[" ++ [ESC]
    ++ str "[38;5;15m\]" /\
  lastbg (section (str "15") (str "32") b) = Some (str "32").
Proof.
  intros b.
  assert (0 <= remaining b)%Z as Hb by (vm_compute; discriminate).
  split; [exact Hb|].
  destruct (section_stores (str "15") (str "32") b Hb) as (Hw & _ & _ & Hl).
  split; [|exact Hl]. rewrite Hw. vm_compute. reflexivity.
Defined.

(** ** [readp] and [readf] in their buffers *)

Lemma readp_loop_length (s : stream) :
  forall (r : Z) (got : bytes),
    (0 <= r < 2 ^ 31)%Z ->
    (Z.of_nat (length (readp_loop s r got)) <= Z.of_nat (length got) + r)%Z.
Proof.
  induction s as [|chunk s IH]; intros r got Hr; simpl; [lia|].
  destruct (Z.ltb_spec 0 r) as [Hr0|Hr0]; [|lia].
  rewrite sys_read_small by assumption.
  destruct (Z.ltb_spec 0 (Z.min r (Z.of_nat (length chunk)))) as [Hpos|Hzero];
    [|lia].
  assert (0 <= r - Z.min r (Z.of_nat (length chunk)) < 2 ^ 31)%Z as Hr'
    by lia.
  specialize (IH _ (got ++ firstn (Z.to_nat r) chunk) Hr').
  rewrite length_app, length_firstn in IH. lia.
Qed.

Lemma captured_length (c : child) (size : Z) :
  (1 <= size <= 2 ^ 31)%Z ->
  (Z.of_nat (length (captured c size)) <= size - 1)%Z.
Proof.
  intros Hsize. assert (0 < 2 ^ 31)%Z by reflexivity.
  unfold captured. destruct c; simpl; try lia.
  rewrite room_of_size by assumption.
  pose proof (readp_loop_length out (size - 1) []) as H1.
  simpl length in H1. lia.
Qed.

Lemma length_store (m data : bytes) (off : nat) :
  off + length data <= length m -> length (store m off data) = length m.
Proof.
  intros H. unfold store.
  rewrite !length_app, length_firstn, length_skipn. lia.
Qed.

Lemma length_cstr (m : bytes) : length (cstr m) <= length m.
Proof.
  induction m as [|c m IH]; simpl; [lia|].
  destruct (Ascii.eqb c NUL); simpl; lia.
Qed.

Lemma cstr_poke (m : bytes) (p : nat) :
  p < length m -> length (cstr (poke m p NUL)) <= p.
Proof.
  intros Hp. unfold poke, store. simpl app.
  rewrite cstr_app_NUL.
  pose proof (length_cstr (firstn p m)) as H.
  rewrite length_firstn in H. lia.
Qed.

(** What both readers do with the bytes [data] they have stored. *)
Lemma terminated_in_buffer (buf data : bytes) (p : nat) (size : Z) :
  (1 <= size)%Z -> (size <= Z.of_nat (length buf))%Z ->
  (Z.of_nat (length data) <= size - 1)%Z ->
  p <= length data ->
  length (poke (store buf 0 data) p NUL) = length buf /\
  (Z.of_nat (length (cstr (poke (store buf 0 data) p NUL))) <= size - 1)%Z.
Proof.
  intros Hsize Hbuf Hdata Hp.
  assert (length (store buf 0 data) = length buf) as Hlen
    by (apply length_store; lia).
  split.
  - unfold poke. rewrite length_store; [exact Hlen|]. simpl. lia.
  - pose proof (cstr_poke (store buf 0 data) p) as H. lia.
Qed.

(** X5: with a buffer of at least [size] bytes, [readp] writes inside it:
    the array keeps its length, whatever the child prints and however
    the pipe delivers it, and the string left in it has at most
    [size - 1] characters. *)
Theorem readp_stays_in_buffer (c : child) (single : bool) (buf : bytes)
    (size : Z) :
  (1 <= size <= 2 ^ 31)%Z ->
  (size <= Z.of_nat (length buf))%Z ->
  length (snd (readp c single buf size)) = length buf /\
  (Z.of_nat (length (cstr (snd (readp c single buf size)))) <= size - 1)%Z.
Proof.
  intros Hsize Hbuf. unfold readp. simpl snd.
  apply terminated_in_buffer; try lia.
  - now apply captured_length.
  - destruct (single && negb (length (captured c size) =? 0)); lia.
Qed.

Lemma readp_stays_in_buffer_witness :
  let c := Ran [repeat "a"%char 200; repeat "b"%char 200] 0 in
  let buf := array (fun _ => "x"%char) 256 in
  (1 <= 256 <= 2 ^ 31)%Z /\ (256 <= Z.of_nat (length buf))%Z /\
  length (snd (readp c false buf 256)) = 256 /\
  (Z.of_nat (length (cstr (snd (readp c false buf 256)))) <= 255)%Z.
Proof.
  intros c buf.
  assert (1 <= 256 <= 2 ^ 31)%Z as Hsize by (vm_compute; split; discriminate).
  assert (256 <= Z.of_nat (length buf))%Z as Hbuf
    by (vm_compute; discriminate).
  split; [exact Hsize|]. split; [exact Hbuf|].
  exact (readp_stays_in_buffer c false buf 256 Hsize Hbuf).
Defined.

(** X6: with a buffer of at least [size] bytes, [readf] writes inside
    it, whether or not the file can be opened and whatever it holds, and
    the string left in it has at most [size - 1] characters. *)
Theorem readf_stays_in_buffer (file : option stream) (buf : bytes)
    (size : Z) :
  (1 <= size <= 2 ^ 31)%Z ->
  (size <= Z.of_nat (length buf))%Z ->
  length (readf file buf size) = length buf /\
  (Z.of_nat (length (cstr (readf file buf size))) <= size - 1)%Z.
Proof.
  intros Hsize Hbuf. assert (0 < 2 ^ 31)%Z by reflexivity.
  unfold readf. destruct file as [s|].
  - apply terminated_in_buffer; try lia.
    + rewrite room_of_size by assumption.
      pose proof (readf_loop_length s (size - 1) []) as H1.
      simpl length in H1. lia.
    + destruct (negb (length (readf_loop s _ []) =? 0)); lia.
  - change (poke buf 0 NUL) with (poke (store buf 0 []) 0 NUL).
    apply terminated_in_buffer; simpl; lia.
Qed.

Lemma readf_stays_in_buffer_witness :
  let file := Some [repeat "a"%char 200; repeat "b"%char 200] in
  let buf := array (fun _ => "x"%char) 256 in
  (1 <= 256 <= 2 ^ 31)%Z /\ (256 <= Z.of_nat (length buf))%Z /\
  length (readf file buf 256) = 256 /\
  (Z.of_nat (length (cstr (readf file buf 256))) <= 255)%Z.
Proof.
  intros file buf.
  assert (1 <= 256 <= 2 ^ 31)%Z as Hsize by (vm_compute; split; discriminate).
  assert (256 <= Z.of_nat (length buf))%Z as Hbuf
    by (vm_compute; discriminate).
  split; [exact Hsize|]. split; [exact Hbuf|].
  exact (readf_stays_in_buffer file buf 256 Hsize Hbuf).
Defined.

(** X7: what [readp] captures does not depend on how the pipe delivers
    the output nor on what the buffer held before: the string is the
    first [size - 1] bytes the child printed, all output behind them
    being dropped without notice, and in [single] mode without the last
    of these bytes. *)
Theorem readp_captures_prefix (out : stream) (wstatus : Z) (single : bool)
    (buf : bytes) (size : Z) :
  (1 <= size <= 2 ^ 31)%Z ->
  Forall (fun chunk => chunk <> []) out ->
  let data := firstn (Z.to_nat (size - 1)) (concat out) in
  cstr (snd (readp (Ran out wstatus) single buf size))
  = cstr (if single then removelast data else data).
Proof.
  intros Hsize Hout data. assert (0 < 2 ^ 31)%Z by reflexivity.
  unfold readp, captured. simpl child_output. simpl snd.
  rewrite room_of_size by assumption.
  rewrite readp_loop_spec by (trivial; lia).
  rewrite app_nil_l. fold data.
  destruct data as [|x data'] eqn:E.
  - destruct single; reflexivity.
  - change (negb (length (x :: data') =? 0)) with true.
    destruct single; simpl andb; cbv iota.
    + rewrite poke_last by discriminate. apply cstr_app_NUL.
    + rewrite poke_end. apply cstr_app_NUL.
Qed.

Lemma readp_captures_prefix_witness :
  (1 <= 8 <= 2 ^ 31)%Z /\
  Forall (fun chunk : bytes => chunk <> []) [str "ab"; str "cdefg"; str "hij"] /\
  cstr (snd (readp (Ran [str "ab"; str "cdefg"; str "hij"] 0) false
               (array (fun _ => "x"%char) 8) 8)) = str "abcdefg" /\
  cstr (snd (readp (Ran [str "ab"; str "cdefg"; str "hij"] 0) true
               (array (fun _ => "x"%char) 8) 8)) = str "abcdef".
Proof.
  assert (1 <= 8 <= 2 ^ 31)%Z as Hsize by (vm_compute; split; discriminate).
  assert (Forall (fun chunk : bytes => chunk <> [])
            [str "ab"; str "cdefg"; str "hij"]) as Hout
    by (repeat constructor; discriminate).
  split; [exact Hsize|]. split; [exact Hout|]. split.
  - etransitivity;
      [exact (readp_captures_prefix _ 0 false _ 8 Hsize Hout)|reflexivity].
  - etransitivity;
      [exact (readp_captures_prefix _ 0 true _ 8 Hsize Hout)|reflexivity].
Defined.

(** ** [split] *)

Lemma scan_none (cells : bytes) (sep : ascii) :
  scan cells sep = None <-> forallb (field_char sep) cells = true.
Proof.
  induction cells as [|c cells IH]; simpl; [tauto|].
  unfold field_char at 1.
  destruct (Ascii.eqb c NUL || Ascii.eqb c sep); simpl.
  - split; discriminate.
  - rewrite <- IH. destruct (scan cells sep); simpl; split;
      try discriminate; reflexivity.
Qed.

(** X8: [split] leaves the array exactly when no cell from the cursor on
    holds a NUL or the separator.  Otherwise it returns the cursor it was
    given, keeps the size of the array and moves the cursor forward by at
    least one cell and at most to the cell behind the array. *)
Theorem split_bounds (buf : bytes) (next : nat) (sep : ascii) :
  (split buf next sep = None <->
   forallb (field_char sep) (skipn next buf) = true) /\
  (forall (seg next' : nat) (m : bytes),
     split buf next sep = Some (seg, m, next') ->
     seg = next /\ next < next' <= length buf /\ length m = length buf).
Proof.
  split.
  - rewrite <- scan_none. unfold split.
    destruct (scan (skipn next buf) sep); split; try discriminate;
      reflexivity.
  - intros seg next' m H. exact (split_cursor _ _ _ _ _ _ H).
Qed.

(** X9: on a field that ends in the array, [split] returns the field:
    the separator behind it becomes the terminator, no other cell
    changes, and the cursor stands behind that cell. *)
Theorem split_returns_field (pre xs rest : bytes) (c sep : ascii) :
  forallb (field_char sep) xs = true ->
  field_char sep c = false ->
  exists m : bytes,
    split (pre ++ xs ++ c :: rest) (length pre) sep
    = Some (length pre, m, length pre + length xs + 1) /\
    m = pre ++ xs ++ NUL :: rest /\
    cstr_at m (length pre) = xs.
Proof.
  intros Hxs Hc. eexists. split; [now apply split_field|].
  split; [reflexivity|]. now apply cstr_at_field with sep.
Qed.

Lemma split_returns_field_witness :
  forallb (field_char LF) (str "false") = true /\
  field_char LF LF = false /\
  exists m : bytes,
    split (str ".git" ++ [NUL] ++ str "false" ++ LF :: str "true") 5 LF
    = Some (5, m, 11) /\
    cstr_at m 5 = str "false".
Proof.
  assert (forallb (field_char LF) (str "false") = true) as Hxs by reflexivity.
  assert (field_char LF LF = false) as Hc by reflexivity.
  split; [exact Hxs|]. split; [exact Hc|].
  destruct (split_returns_field (str ".git" ++ [NUL]) (str "false")
              (str "true") LF LF Hxs Hc) as (m & Hs & _ & Hf).
  exists m. split; [exact Hs | exact Hf].
Defined.

(** ** The location probe *)

(** An output of fewer than 256 bytes is stored whole, with the
    terminator behind it. *)
Lemma readp_whole_output (out : stream) (wstatus : Z) (m : bytes) :
  Forall (fun chunk => chunk <> []) out ->
  length (concat out) <= 255 ->
  snd (readp (Ran out wstatus) false m 256)
  = concat out ++ NUL :: skipn (length (concat out) + 1) m.
Proof.
  intros Hout Hlen. unfold readp, captured. simpl child_output.
  rewrite room_of_size by (vm_compute; split; discriminate).
  assert (0 <= 256 - 1 < 2 ^ 31)%Z as Hroom
    by (vm_compute; split; [discriminate|reflexivity]).
  rewrite (readp_loop_spec out Hout _ [] Hroom).
  rewrite app_nil_l, firstn_all2 by lia.
  simpl andb. cbv iota. simpl snd. apply poke_end.
Qed.

(** X10: when [git rev-parse] returns 0 after printing its five lines,
    together fewer than 256 bytes, the five [split] calls stay in [rpbuf]
    and the resolver works with the five fields as printed, however the
    pipe delivered them and whatever [rpbuf] held before. *)
Theorem location_fields (w : world) (out : stream) (wstatus : Z)
    (g i b t s : bytes) :
  run w rev_parse = Ran out wstatus ->
  exit_code (Ran out wstatus) = 0%Z ->
  Forall (fun chunk => chunk <> []) out ->
  concat out = g ++ LF :: i ++ LF :: b ++ LF :: t ++ LF :: s ++ [LF] ->
  length (concat out) <= 255 ->
  forallb (field_char LF) g = true ->
  forallb (field_char LF) i = true ->
  forallb (field_char LF) b = true ->
  forallb (field_char LF) t = true ->
  forallb (field_char LF) s = true ->
  locate (fst (location_probe w)) (snd (location_probe w))
  = Some (mkLocation g i b t (Some s), []).
Proof.
  intros Hrun Hexit Hout Hcat Hlen Hg Hi Hb Ht Hs.
  unfold location_probe. rewrite Hrun.
  rewrite readp_whole_output by assumption.
  change (fst (readp (Ran out wstatus) false (array (rpbuf_junk w) 256) 256))
    with (exit_code (Ran out wstatus)).
  rewrite Hexit, Hcat.
  replace ((g ++ LF :: i ++ LF :: b ++ LF :: t ++ LF :: s ++ [LF])
           ++ NUL :: skipn (length
                (g ++ LF :: i ++ LF :: b ++ LF :: t ++ LF :: s ++ [LF]) + 1)
                (array (rpbuf_junk w) 256))
    with (g ++ LF :: i ++ LF :: b ++ LF :: t ++ LF :: s ++ LF
            :: (NUL :: skipn (length
                 (g ++ LF :: i ++ LF :: b ++ LF :: t ++ LF :: s ++ [LF]) + 1)
                 (array (rpbuf_junk w) 256))).
  - exact (proj1 (locate_lines g i b t s _ Hg Hi Hb Ht Hs)).
  - repeat (rewrite <- app_assoc; simpl app). reflexivity.
Qed.

Lemma location_fields_witness :
  exists l,
    locate (fst (location_probe (upstream_world 2 3)))
      (snd (location_probe (upstream_world 2 3))) = Some (l, []) /\
    git l = str ".git" /\ inside l = str "false" /\ bare l = str "false" /\
    intree l = str "true" /\ ssha l = Some (str "abc1234").
Proof.
  eexists. split.
  - apply (location_fields (upstream_world 2 3)
             [line ".git" ++ line "false" ++ line "false" ++ line "true"
              ++ line "abc1234"] (W_EXITCODE 0 0)
             (str ".git") (str "false") (str "false") (str "true")
             (str "abc1234"));
      try reflexivity.
    + repeat constructor; discriminate.
    + simpl. lia.
  - repeat split.
Defined.

(** ** The directory that is shown *)

Lemma forallb_firstn_S (P : ascii -> bool) (l : bytes) :
  forall j : nat,
    j < length l ->
    forallb P (firstn (S j) l) = true ->
    P (nth j l NUL) = true /\ forallb P (firstn j l) = true.
Proof.
  induction l as [|c l IH]; intros j Hj H; [simpl in Hj; lia|].
  simpl in H. apply andb_true_iff in H as [Hc H].
  destruct j as [|j]; [now split|].
  simpl in Hj. destruct (IH j) as [H1 H2]; [lia|exact H|].
  split; [exact H1|]. simpl. now rewrite Hc.
Qed.

Lemma back_to_slash_stop (pre name : bytes) (j : nat) :
  forallb not_slash (firstn j name) = true ->
  j <= length name ->
  back_to_slash (pre ++ "/"%char :: name) (length pre + 1 + j)
  = length pre + 1.
Proof.
  induction j as [|j IH]; intros Hname Hj.
  - replace (length pre + 1 + 0) with (S (length pre)) by lia.
    simpl. rewrite app_nth2, Nat.sub_diag by lia. simpl. lia.
  - replace (length pre + 1 + S j) with (S (length pre + 1 + j)) by lia.
    simpl back_to_slash.
    rewrite app_nth2 by lia.
    replace (length pre + 1 + j - length pre) with (S j) by lia.
    simpl nth.
    destruct (forallb_firstn_S not_slash name j) as [Hc Hpre];
      [lia|exact Hname|].
    unfold not_slash in Hc. apply negb_true_iff in Hc. rewrite Hc.
    apply IH; [exact Hpre | lia].
Qed.

Lemma short_dir_component (pre name : bytes) :
  2 <= length name ->
  forallb not_slash (firstn (length name - 2) name) = true ->
  short_dir (pre ++ "/"%char :: name) = name /\
  exists before, pre ++ "/"%char :: name = before ++ short_dir (pre ++ "/"%char :: name).
Proof.
  intros Hlen Hname.
  assert (short_dir (pre ++ "/"%char :: name) = name) as E.
  { unfold short_dir. rewrite length_app. simpl length.
    destruct (Nat.ltb_spec (length pre + S (length name)) 2) as [H|H];
      [lia|].
    replace (length pre + S (length name) - 2)
      with (length pre + 1 + (length name - 2)) by lia.
    rewrite back_to_slash_stop by (trivial; lia).
    replace (length pre + 1) with (length (pre ++ ["/"%char]))
      by (rewrite length_app; simpl; lia).
    replace (pre ++ "/"%char :: name) with ((pre ++ ["/"%char]) ++ name)
      by (now rewrite <- app_assoc).
    replace (length (pre ++ ["/"%char]))
      with (length (pre ++ ["/"%char]) + 0) by lia.
    now rewrite skipn_length_app. }
  split; [exact E|].
  exists (pre ++ ["/"%char]). rewrite E. now rewrite <- app_assoc.
Qed.

(** X11: [cwd_section] shows a tail of the directory: it starts two
    characters before the end and goes back to the slash before, so a
    last component of two or more characters is shown alone, whatever
    comes before it.  Only the characters before the last two are
    searched: a last component of one character is shown together with
    the component before it. *)
Theorem short_dir_last_component (pre name : bytes) :
  2 <= length name ->
  forallb not_slash (firstn (length name - 2) name) = true ->
  short_dir (pre ++ "/"%char :: name) = name /\
  exists before, pre ++ "/"%char :: name = before ++ short_dir (pre ++ "/"%char :: name).
Proof. exact (short_dir_component pre name). Qed.

Lemma short_dir_last_component_witness :
  2 <= length (str "user") /\
  short_dir (str "/home/user") = str "user" /\
  short_dir (str "/a/b/") = str "b/" /\
  short_dir (str "/a/b") = str "a/b".
Proof.
  split; [simpl; lia|]. split; [|split].
  - apply (short_dir_last_component (str "/home") (str "user"));
      [simpl; lia | reflexivity].
  - apply (short_dir_last_component (str "/a") (str "b/"));
      [simpl; lia | reflexivity].
  - apply (short_dir_last_component [] (str "a/b"));
      [simpl; lia | reflexivity].
Defined.






(** ** The commands of a resolution *)

Lemma operation_and_head_commands (w : world) (git : bytes)
    (ssha : option bytes) (d : detection) (detached : bool)
    (t : list event) :
  operation_and_head w git ssha = Some ((d, detached), t) ->
  (detached = false /\ (commands t = [] \/ commands t = [read_head])) \/
  (detached = true /\ commands t = [describe]).
Proof.
  unfold operation_and_head, rebase_merge, other_operation, rebase_apply,
    head_label, isdir, isreg, islnk, do_readf, do_readp, tagged.
  unfold bind, call, ret.
  probe_cases; simpl;
    repeat match goal with
    | |- context [strneq ?a ?b ?n] => destruct (strneq a b n); simpl
    end;
    intros H; inversion H; subst; simpl; auto.
Qed.

Lemma commands_app (t1 t2 : list event) :
  commands (t1 ++ t2) = commands t1 ++ commands t2.
Proof. unfold commands. apply flat_map_app. Qed.

(** X14: a resolution runs at most six commands, always in the same
    order: the location probe; then at most one of [symbolic-ref] and
    [describe], the latter exactly when the head is detached; then the
    four work tree probes, all four or none, and all four exactly when
    the directory is in a work tree and not in the git directory. *)
Theorem resolution_commands (w : world) (v : summary) (t : list event) :
  repository_state w = Some (Some v, t) ->
  exists l head_cmds tree_cmds,
    locate (fst (location_probe w)) (snd (location_probe w)) = Some (l, []) /\
    commands t = rev_parse :: head_cmds ++ tree_cmds /\
    (head_cmds = [describe] <-> v_detached v = true) /\
    (head_cmds = [] \/ head_cmds = [read_head] \/ head_cmds = [describe]) /\
    tree_cmds
    = (if negb (streq (inside l) (str "true"))
          && streq (intree l) (str "true")
       then worktree_commands else []) /\
    length (commands t) <= 6.
Proof.
  intros H. apply repository_state_inv in H as (t' & -> & H).
  apply resolve_inv in H
    as (l & d & det & t2 & r & q & t3 & Hl & Hd & _ & Hq & -> & ->).
  assert (commands (Exec rev_parse :: t2 ++ t3)
          = rev_parse :: commands t2 ++ commands t3) as Hall
    by (simpl; now rewrite commands_app).
  rewrite Hall.
  exists l, (commands t2), (commands t3).
  split; [exact Hl|].
  split; [reflexivity|].
  assert (commands t3
          = (if negb (streq (inside l) (str "true"))
                && streq (intree l) (str "true")
             then worktree_commands else [])) as Htree.
  { destruct (streq (inside l) (str "true")).
    - destruct Hq as [_ ->]. reflexivity.
    - destruct (streq (intree l) (str "true")).
      + apply worktree_probes_inv in Hq as (-> & _). reflexivity.
      + destruct Hq as [_ ->]. reflexivity. }
  assert (length (commands t3) <= 4) as Hlen.
  { rewrite Htree. destruct (_ && _); simpl; lia. }
  simpl v_detached.
  apply operation_and_head_commands in Hd as [[-> [E|E]]|[-> E]];
    rewrite E.
  - split; [split; discriminate|]. split; [auto|].
    split; [exact Htree|]. simpl. lia.
  - split; [split; discriminate|]. split; [auto|].
    split; [exact Htree|]. simpl. lia.
  - split; [split; reflexivity|]. split; [auto|].
    split; [exact Htree|]. simpl. lia.
Qed.

Lemma resolution_commands_witness :
  exists v t head_cmds,
    repository_state (upstream_world 2 3) = Some (Some v, t) /\
    commands t = rev_parse :: head_cmds ++ worktree_commands /\
    length (commands t) <= 6.
Proof.
  assert (exists v t,
            repository_state (upstream_world 2 3) = Some (Some v, t))
    as (v & t & E) by (vm_compute; eauto).
  destruct (resolution_commands _ v t E)
    as (l & hc & tc & Hl & Hc & _ & _ & Htc & Hlen).
  vm_compute in Hl. inversion Hl; subst l; clear Hl.
  exists v, t, hc. split; [exact E|]. split; [|exact Hlen].
  rewrite Hc, Htc. reflexivity.
Defined.

(** ** The text of the git section *)

Lemma escape_app (a b : bytes) : escape (a ++ b) = escape a ++ escape b.
Proof.
  induction a as [|c a IH]; simpl; [reflexivity|].
  now rewrite IH, <- app_assoc.
Qed.

Lemma append_if_exact (x : option bytes) (b : buffer) :
  (Z.of_nat (length (escape (text_of x))) <= remaining b)%Z ->
  append_if x b =
  {| written := written b ++ escape (text_of x);
     remaining := remaining b - Z.of_nat (length (escape (text_of x)));
     lastbg := lastbg b |}.
Proof.
  intros H. destruct x as [src|]; simpl in *.
  - unfold append. simpl. now apply append1_exact.
  - rewrite app_nil_r.
    replace (remaining b - 0)%Z with (remaining b) by lia. now destruct b.
Qed.

(** X15: when the prompt has room for it, the git section is the escape
    sequences of a section, in the colours of a dirty state when the head
    is detached or the work tree, the index or the stash has a mark,
    followed by the tag [BARE:], the label, a space and the marks if
    there are any, the operation and the upstream mark, with a backslash
    before every dollar sign and backslash, that of the stash mark
    included. *)
Theorem render_text (v : summary) (buf : buffer) :
  (Z.of_nat (length (section_text (lastbg buf) (summary_fg v) (summary_bg v)))
   + Z.of_nat (length (escape (summary_text v))) <= remaining buf)%Z ->
  written (render v buf)
  = written buf
    ++ section_text (lastbg buf) (summary_fg v) (summary_bg v)
    ++ escape (summary_text v) /\
  remaining (render v buf)
  = (remaining buf
     - Z.of_nat (length (section_text (lastbg buf) (summary_fg v)
                           (summary_bg v)))
     - Z.of_nat (length (escape (summary_text v))))%Z.
Proof.
  intros Hroom.
  assert (0 <= remaining buf)%Z as Hbuf by lia.
  destruct (section_exact (summary_fg v) (summary_bg v) buf Hbuf)
    as (Hw & Hr & _ & Hl).
  rewrite firstn_all2 in Hw by lia. rewrite Z.min_r in Hr by lia.
  unfold render. fold (summary_fg v). fold (summary_bg v).
  set (b0 := section (summary_fg v) (summary_bg v) buf) in *.
  clearbody b0. unfold summary_text in *.
  rewrite !escape_app in Hroom. rewrite !escape_app.
  rewrite !length_app in Hroom.
  destruct v as [op c b w' i s r p det]. simpl v_c in *. simpl v_b in *.
  simpl v_w in *. simpl v_i in *. simpl v_s in *. simpl v_r in *.
  simpl v_p in *.
  rewrite (append_if_exact c b0) by lia.
  rewrite (append_if_exact b) by (simpl remaining; lia).
  destruct (is_set w' || is_set i || is_set s).
  - rewrite !escape_app in Hroom. rewrite !length_app in Hroom.
    rewrite !escape_app. simpl length in Hroom.
    match goal with
    | |- context [append [Some (str " ")] ?X] =>
        change (append [Some (str " ")] X)
          with (append_if (Some (str " ")) X)
    end.
    rewrite (append_if_exact (Some (str " ")))
      by (simpl remaining; simpl; lia).
    rewrite (append_if_exact w') by (simpl remaining; simpl length; lia).
    rewrite (append_if_exact i) by (simpl remaining; simpl length; lia).
    rewrite (append_if_exact s) by (simpl remaining; simpl length; lia).
    rewrite (append_if_exact r) by (simpl remaining; simpl length; lia).
    rewrite (append_if_exact p) by (simpl remaining; simpl length; lia).
    simpl written. simpl remaining. rewrite Hw, Hr.
    split; [|rewrite !length_app; simpl length; lia].
    rewrite <- !app_assoc. reflexivity.
  - simpl escape in *. simpl length in Hroom.
    rewrite (append_if_exact r) by (simpl remaining; lia).
    rewrite (append_if_exact p) by (simpl remaining; lia).
    simpl written. simpl remaining. rewrite Hw, Hr.
    split; [|rewrite !length_app; simpl length; lia].
    rewrite <- !app_assoc. reflexivity.
Qed.

Lemma render_text_witness :
  let v := mkSummary NoOperation None (Some (str "main")) (Some (str "*"))
             None (Some (str "$")) None (Some up_arrow) false in
  written (render v initial_buffer)
  = (str "\[" ++ [ESC] ++ str "[38;5;15m" ++ [ESC] ++ str "[48;5;125m\]")
    ++ str "main *\$" ++ up_arrow.
Proof.
  intros v.
  assert (Z.of_nat (length (section_text (lastbg initial_buffer)
                              (summary_fg v) (summary_bg v)))
          + Z.of_nat (length (escape (summary_text v)))
          <= remaining initial_buffer)%Z as Hroom
    by (vm_compute; discriminate).
  rewrite (proj1 (render_text v initial_buffer Hroom)). reflexivity.
Defined.

(** X16: a branch in step with its upstream and a branch without an
    upstream give the same prompt: the mark of the first is the empty
    string, that of the second is not set, and neither changes the
    colours. *)
Theorem in_sync_shows_nothing (op : operation) (c b w i s r : option bytes)
    (detached : bool) (buf : buffer) :
  render (mkSummary op c b w i s r (divergence_mark InSync) detached) buf
  = render (mkSummary op c b w i s r (divergence_mark NoUpstream) detached)
      buf.
Proof. reflexivity. Qed.

(** ** The suffix of a rebase by [rebase-apply] *)

(** X17: in a [rebase-apply] directory the suffix of the operation is
    its tag, a space, the content of [next], a slash and the content of
    [last], when that text and its terminator fit the 256 bytes of
    [tmp4]; a longer one is written past [tmp4].  The two files are
    read whether or not they exist, so without them the tag is followed
    by a space and a slash. *)
Theorem rebase_apply_suffix (w : world) (g : bytes) (h : option bytes)
    (d : detection) (detached : bool) (t : list event) :
  operation_and_head w g h = Some ((d, detached), t) ->
  has_dir w g "/rebase-merge" = false ->
  has_dir w g "/rebase-apply" = true ->
  exists tag,
    operation_tag (d_op d) = Some tag /\
    (let text :=
       tag ++ str " "
       ++ cstr (readf (open_rd w (in_git g "/rebase-apply/next")) [] 256)
       ++ str "/"
       ++ cstr (readf (open_rd w (in_git g "/rebase-apply/last")) [] 256) in
     with_progress (d_r d) (d_step d) (d_total d)
     = if length text <? 256 then Some (Some text) else None) /\
    (open_rd w (in_git g "/rebase-apply/next") = None ->
     open_rd w (in_git g "/rebase-apply/last") = None ->
     with_progress (d_r d) (d_step d) (d_total d)
     = Some (Some (tag ++ str " /"))).
Proof.
  intros H Hm Ha.
  destruct (rebase_apply_progress _ _ _ _ _ _ H Hm Ha)
    as (tag & step & total & Htag & Hr & Hs & Ht).
  pose proof (progress_captured _ _ _ _ _ _ H) as Hp.
  rewrite Hm, Ha in Hp. destruct Hp as [Hs' Ht'].
  rewrite Hs in Hs'. rewrite Ht in Ht'.
  inversion Hs'; subst step. inversion Ht'; subst total.
  rewrite Hr, Hs, Ht, with_progress_tagged.
  exists tag. split; [exact Htag|]. split; [reflexivity|].
  intros Hn Hl. rewrite Hn, Hl.
  change (cstr (readf None [] 256)) with (@nil ascii).
  cbv zeta. rewrite app_nil_r.
  pose proof (operation_tag_length _ _ Htag) as Hlen.
  replace (length (tag ++ str " " ++ [] ++ str "/") <? 256) with true.
  - reflexivity.
  - symmetry. apply Nat.ltb_lt. rewrite length_app.
    change (length (str " " ++ [] ++ str "/")) with 2. lia.
Qed.

Lemma rebase_apply_suffix_witness :
  has_dir rebase_apply_world (str ".git") "/rebase-merge" = false /\
  has_dir rebase_apply_world (str ".git") "/rebase-apply" = true /\
  exists d detached t,
    operation_and_head rebase_apply_world (str ".git") None
    = Some ((d, detached), t) /\
    with_progress (d_r d) (d_step d) (d_total d)
    = Some (Some (str "|REBASE 3/7")).
Proof.
  assert (has_dir rebase_apply_world (str ".git") "/rebase-merge" = false)
    as Hm by reflexivity.
  assert (has_dir rebase_apply_world (str ".git") "/rebase-apply" = true)
    as Ha by reflexivity.
  split; [exact Hm|]. split; [exact Ha|].
  assert (exists d detached t,
            operation_and_head rebase_apply_world (str ".git") None
            = Some ((d, detached), t)) as (d & det & t & E)
    by (vm_compute; eauto).
  exists d, det, t. split; [exact E|].
  destruct (rebase_apply_suffix _ _ _ _ _ _ E Hm Ha) as (tag & Htag & Hr & _).
  cbv zeta in Hr. rewrite Hr. vm_compute in E. inversion E; subst d. clear E.
  vm_compute in Htag. inversion Htag; subst tag. reflexivity.
Defined.

(** ** The head label *)

(** A file of one line of fewer than 255 bytes, as [readf] returns it. *)
Lemma readf_line (s : stream) (body : bytes) :
  Forall (fun chunk => chunk <> []) s ->
  concat s = body ++ [LF] ->
  length (concat s) <= 255 ->
  forallb (fun c => negb (Ascii.eqb c NUL)) body = true ->
  cstr (readf (Some s) [] 256) = body.
Proof.
  intros Hs Hline Hlen Hbody.
  assert (1 <= 256 <= 2 ^ 31)%Z as Hsize by (vm_compute; split; discriminate).
  assert (0 <= 256 - 1 < 2 ^ 31)%Z as Hroom
    by (vm_compute; split; [discriminate|reflexivity]).
  rewrite readf_memory. rewrite room_of_size by exact Hsize.
  rewrite (readf_loop_spec s Hs _ [] Hroom).
  rewrite app_nil_l, firstn_all2 by lia. rewrite Hline.
  destruct (body ++ [LF]) as [|x l] eqn:E; [destruct body; discriminate|].
  rewrite <- E, removelast_last, cstr_app_NUL.
  now apply cstr_clean.
Qed.

(** X18: when [HEAD] is a file that holds the line [ref: <name>], the
    label is [<name>] without a [refs/heads/] in front of it, the head is
    not detached and no command is run for it. *)
Theorem branch_label (w : world) (g : bytes) (h : option bytes)
    (s : stream) (branch : bytes) :
  is_type Symlink (lstat w (in_git g "/HEAD")) = false ->
  open_rd w (in_git g "/HEAD") = Some s ->
  Forall (fun chunk => chunk <> []) s ->
  concat s = str "ref: refs/heads/" ++ branch ++ [LF] ->
  length (concat s) <= 255 ->
  forallb (fun c => negb (Ascii.eqb c NUL)) branch = true ->
  exists label t,
    head_label w g h = Some ((Some label, false), t) /\
    label = str "refs/heads/" ++ branch /\
    strip_heads (Some label) = Some branch /\
    commands t = [].
Proof.
  intros Hlnk Hopen Hs Hline Hlen Hbranch.
  assert (cstr (readf (open_rd w (in_git g "/HEAD")) [] 256)
          = str "ref: refs/heads/" ++ branch) as Hhead.
  { rewrite Hopen.
    apply readf_line; trivial. }
  unfold head_label, islnk, do_readf. rewrite !bind_call.
  rewrite Hlnk, Hhead.
  assert (strneq (str "ref: refs/heads/" ++ branch) (str "ref: ") 5 = true)
    as -> by reflexivity.
  unfold ret. do 2 eexists. split; [reflexivity|].
  split; [reflexivity|]. split; [|reflexivity].
  unfold strip_heads. simpl skipn.
  assert (strneq (str "refs/heads/" ++ branch) (str "refs/heads/") 11 = true)
    as E by reflexivity.
  simpl app in E. rewrite E. reflexivity.
Qed.

Lemma branch_label_witness :
  exists t,
    head_label (upstream_world 2 3) (str ".git") None
    = Some ((Some (str "refs/heads/main"), false), t) /\
    strip_heads (Some (str "refs/heads/main")) = Some (str "main").
Proof.
  destruct (branch_label (upstream_world 2 3) (str ".git") None
              [line "ref: refs/heads/main"] (str "main"))
    as (label & t & Hh & -> & Hstrip & _); try reflexivity.
  - repeat constructor; discriminate.
  - simpl. lia.
  - exists t. split; [exact Hh | exact Hstrip].
Defined.



(** ** The prompt sign *)

(** X20: the prompt ends in a section with a dollar sign that is stored
    with a backslash before it, on colour 160 when the program was given
    exactly one argument and that is not [0], and on colour 40 otherwise:
    without an argument no error is shown. *)
Theorem status_sign (argv : list bytes) (u p c : option bytes) (hst : bytes)
    (b : buffer) :
  let data := mkPromptData u hst p c (error_flag argv) in
  let colour :=
    str (if (length argv =? 2) && negb (streq (nth 1 argv []) (str "0"))
         then "160" else "40") in
  (Z.of_nat (length (section_text (lastbg b) colour (str "0"))) + 2
   <= remaining b)%Z ->
  written (status_section data b)
  = written b ++ section_text (lastbg b) colour (str "0") ++ str "\$".
Proof.
  intros data colour Hroom.
  assert (0 <= remaining b)%Z as Hb by lia.
  assert (status_section data b
          = append [Some (str "$")] (section colour (str "0") b)) as ->.
  { unfold status_section, data, colour, error_flag. simpl error.
    now destruct ((length argv =? 2) && _). }
  destruct (section_exact colour (str "0") b Hb) as (Hw & Hr & _ & _).
  rewrite firstn_all2 in Hw by lia. rewrite Z.min_r in Hr by lia.
  set (b0 := section colour (str "0") b) in *. clearbody b0.
  assert (forall (src : bytes) (x : buffer),
            append [Some src] x = append1 src x) as -> by reflexivity.
  rewrite append1_exact by (simpl length; lia).
  cbn [written]. rewrite Hw. now rewrite <- app_assoc.
Qed.

Lemma status_sign_witness :
  written (status_section
             (mkPromptData None (str "h") None None
                (error_flag [str "prompt"; str "1"]))
             initial_buffer)
  = (str "\[" ++ [ESC] ++ str "[38;5;160m" ++ [ESC] ++ str "[48;5;0m\]")
    ++ str "\$".
Proof.
  assert (Z.of_nat (length (section_text (lastbg initial_buffer)
                              (str "160") (str "0"))) + 2
          <= remaining initial_buffer)%Z as Hroom
    by (vm_compute; discriminate).
  exact (status_sign [str "prompt"; str "1"] None None None (str "h")
           initial_buffer Hroom).
Defined.

(** ** Sections one after the other *)

(** X21: the sections chain: with room for all of it, the user and host
    section, the directory section and the final section store the
    colours of the first, the user, an at sign and the host, then a
    separator drawn in the background of the first on that of the
    second, the shown directory, and the sequence that resets the
    colours, user, host and directory with their dollar signs and
    backslashes escaped. *)
Theorem sections_chain (data : prompt_data) (u dir : bytes) (b : buffer) :
  user data = Some u ->
  let first := section_text (lastbg b) (str "253") (str "242") in
  let names := escape u ++ str "@" ++ escape (host data) in
  let second := section_text (Some (str "242")) (str "15") (str "32") in
  let final := str "\[" ++ [ESC] ++ str "[m\] " in
  (Z.of_nat (length first + length names + length second
             + length (escape (short_dir dir)) + length final)
   <= remaining b)%Z ->
  written (final_section (cwd_section dir (user_host_section data b)))
  = written b ++ first ++ names ++ second ++ escape (short_dir dir) ++ final.
Proof.
  intros Huser first names second final Hroom.
  assert (0 <= remaining b)%Z as Hb by lia.
  unfold final_section, cwd_section, user_host_section. rewrite Huser.
  change [Some u; Some (str "@"); Some (host data)]
    with (fragments [u; str "@"; host data]).
  change [Some (short_dir dir)] with (fragments [short_dir dir]).
  change [Some (str "\[" ++ [ESC] ++ str "[m\] ")] with (fragments [final]).
  assert (concat (map escape [u; str "@"; host data]) = names) as Hnames
    by (unfold names; simpl; now rewrite app_nil_r).
  assert (concat (map escape [short_dir dir]) = escape (short_dir dir))
    as Hdir by (simpl; now rewrite app_nil_r).
  assert (concat [final] = final) as Hfinal by reflexivity.
  assert (section_text (Some (str "242")) (str "15") (str "32") = second)
    as Hsecond by reflexivity.
  clearbody names second final.
  (* the first section *)
  destruct (section_exact (str "253") (str "242") b Hb)
    as (Hw1 & Hr1 & _ & Hl1).
  fold first in Hw1, Hr1. clearbody first.
  rewrite firstn_all2 in Hw1 by lia. rewrite Z.min_r in Hr1 by lia.
  set (b1 := section (str "253") (str "242") b) in *. clearbody b1.
  (* user, at sign, host *)
  destruct (append_fragments [u; str "@"; host data] b1)
    as (Hw2 & Hr2 & Hl2); [rewrite Hnames; lia|].
  rewrite Hnames in Hw2, Hr2.
  set (b2 := append (fragments [u; str "@"; host data]) b1) in *.
  clearbody b2.
  (* the second section *)
  assert (0 <= remaining b2)%Z as Hb2 by lia.
  destruct (section_exact (str "15") (str "32") b2 Hb2)
    as (Hw3 & Hr3 & _ & Hl3).
  rewrite Hl2, Hl1, Hsecond in Hw3, Hr3.
  rewrite firstn_all2 in Hw3 by lia. rewrite Z.min_r in Hr3 by lia.
  set (b3 := section (str "15") (str "32") b2) in *. clearbody b3.
  (* the directory *)
  destruct (append_fragments [short_dir dir] b3)
    as (Hw4 & Hr4 & _); [rewrite Hdir; lia|].
  rewrite Hdir in Hw4, Hr4.
  set (b4 := append (fragments [short_dir dir]) b3) in *. clearbody b4.
  (* the final section *)
  assert (0 <= remaining b4)%Z as Hb4 by lia.
  destruct (appendraw_fragments [final] b4 Hb4) as (Hw5 & _).
  rewrite Hfinal in Hw5. rewrite firstn_all2 in Hw5 by lia.
  rewrite Hw5, Hw4, Hw3, Hw2, Hw1.
  now rewrite <- !app_assoc.
Qed.

Lemma sections_chain_witness :
  let data := mkPromptData (Some (str "me")) (str "box") None None 0 in
  user data = Some (str "me") /\
  written (final_section
             (cwd_section (str "~/src/$x")
                (user_host_section data initial_buffer)))
  = (str "\[" ++ [ESC] ++ str "[38;5;253m" ++ [ESC] ++ str "[48;5;242m\]")
    ++ str "me@box"
    ++ (str " \[" ++ [ESC] ++ str "[38;5;242m" ++ [ESC] ++ str "[48;5;32m\]"
        ++ separator_glyph ++ str " \[" ++ [ESC] ++ str "[38;5;15m\]")
    ++ str "\$x"
    ++ (str "\[" ++ [ESC] ++ str "[m\] ").
Proof.
  intros data.
  assert (user data = Some (str "me")) as Huser by reflexivity.
  split; [exact Huser|].
  rewrite (sections_chain data (str "me") (str "~/src/$x") initial_buffer
             Huser) by (vm_compute; discriminate).
  reflexivity.
Defined.
